(** * Scene representation of NRIFramework ([Include/Utils.h])

    A shallow embedding of the [utils] namespace: the plain data structures
    ([Instance], [Mesh], [AnimationNode], [NodeTree], [Animation], [Scene]),
    the two inline unload operations of [Scene], and the three animation
    entry points whose bodies live outside the header.

    The vector and matrix types ([float3], [double3], [float4], [float4x4],
    [cBoxf]) come from an external math library.  The development is
    parametric in that library: every operation it offers is a field of the
    class [MathLib], and every theorem holds for each implementation of it. *)

From Stdlib Require Import ZArith NArith QArith Bool List String Lia.
From stdpp Require Import base option list gmap.

Local Set Warnings "-register-all,-clear-no-such-hyp".
Local Open Scope N_scope.

(** ** Machine integers and indices *)

(** [uint32_t(z)]: conversion of an integer to a 32-bit unsigned one. *)
Definition uint32_t (z : Z) : N := Z.to_N (z mod 2 ^ 32)%Z.

(** [constexpr uint32_t InvalidIndex = uint32_t(-1);] *)
Definition InvalidIndex : N := uint32_t (-1).

(** [enum StaticTexture : uint32_t] *)
Inductive StaticTexture :=
  | Black | Invalid | FlatNormal | ScramblingRanking1spp | SobolSequence.

Definition StaticTexture_value (t : StaticTexture) : N :=
  match t with
  | Black => 0 | Invalid => 1 | FlatNormal => 2
  | ScramblingRanking1spp => 3 | SobolSequence => 4
  end.

(** [enum class AlphaMode]: a scoped enumeration over [int].  Its values are
    the integers, of which the four enumerators name 0 to 3; a cast
    ([static_cast<AlphaMode>(7)]) gives a value that no enumerator names. *)
Definition AlphaMode : Type := Z.
Definition OPAQUE : AlphaMode := 0%Z.
Definition PREMULTIPLIED : AlphaMode := 1%Z.
Definition TRANSPARENT : AlphaMode := 2%Z.
Definition OFF : AlphaMode := 3%Z.

(** [a == b] on [AlphaMode] *)
Definition AlphaMode_eqb (a b : AlphaMode) : bool := (a =? b)%Z.

(** ** Vectors of the math library

    Three and four component vectors are records over their scalar type. *)

Record vec3 (A : Type) := mkVec3 { v3x : A; v3y : A; v3z : A }.
Record vec4 (A : Type) := mkVec4 { v4x : A; v4y : A; v4z : A; v4w : A }.
Arguments mkVec3 {A} _ _ _.
Arguments v3x {A} _.
Arguments v3y {A} _.
Arguments v3z {A} _.
Arguments mkVec4 {A} _ _ _ _.
Arguments v4x {A} _.
Arguments v4y {A} _.
Arguments v4z {A} _.
Arguments v4w {A} _.

(** ** The interface of the math library

    [float] is the 32-bit and [double] the 64-bit floating-point type.  The
    three laws at the end are facts about comparisons that IEEE comparisons
    satisfy (a comparison with a NaN is false, which falsifies the
    premises). *)
Class MathLib := {
  float : Type;
  double : Type;
  float4x4 : Type;
  cBoxf : Type;
  f_zero : float;
  f_one : float;
  d_zero : double;
  f_add : float -> float -> float;
  f_sub : float -> float -> float;
  f_mul : float -> float -> float;
  f_div : float -> float -> float;
  f_eqb : float -> float -> bool;
  f_ltb : float -> float -> bool;
  f_leb : float -> float -> bool;
  (* interpolation, by a [float] factor *)
  f_lerp : float -> float -> float -> float;
  d_lerp : double -> double -> float -> double;
  (* quaternions *)
  q_dot : vec4 float -> vec4 float -> float;
  q_neg : vec4 float -> vec4 float;
  q_slerp : vec4 float -> vec4 float -> float -> vec4 float;
  (* matrices *)
  float4x4_Identity : float4x4;
  m_mul : float4x4 -> float4x4 -> float4x4;
  m_translation : vec3 double -> float4x4;
  m_rotation : vec4 float -> float4x4;
  m_scale : vec3 float -> float4x4;
  m_rotationPart : float4x4 -> float4x4;
  m_position : float4x4 -> vec3 double;
  (* comparisons *)
  f_ltb_trans : forall a b c, f_ltb a b = true -> f_ltb b c = true -> f_ltb a c = true;
  f_ltb_leb_trans : forall a b c, f_ltb a b = true -> f_leb b c = true -> f_ltb a c = true;
  f_ltb_not_leb : forall a b, f_ltb a b = true -> f_leb b a = false
}.

(** ** Vectors as the standard library has them *)

Section Vector.
Context {A : Type}.

(** [v.resize(n)]: the first [n] elements are kept, and missing ones are
    value-initialised ([fill]). *)
Definition vector_resize (n : nat) (fill : A) (v : list A) : list A :=
  take n v ++ replicate (n - length v) fill.

(** [v.shrink_to_fit()] only gives capacity back; the contents stay. *)
Definition vector_shrink_to_fit (v : list A) : list A := v.

(** [v[i]], defined inside the bounds only. *)
Definition vector_at (v : list A) (i : N) : option A := v !! N.to_nat i.

(** [v[i] = x] for [i] inside the bounds. *)
Definition vector_set (v : list A) (i : N) (x : A) : list A :=
  <[N.to_nat i := x]> v.
End Vector.

Section Model.
Context {L : MathLib}.

Definition float3 : Type := vec3 float.
Definition double3 : Type := vec3 double.
Definition float4 : Type := vec4 float.

(** [float3(a)] *)
Definition float3_splat (a : float) : float3 := mkVec3 a a a.
(** [double3::Zero()] *)
Definition double3_Zero : double3 := mkVec3 d_zero d_zero d_zero.

(** *** [struct Material] *)
Record Material := mkMaterial {
  Material_diffuseMapIndex : N;
  Material_specularMapIndex : N;
  Material_normalMapIndex : N;
  Material_emissiveMapIndex : N;
  Material_alphaMode : AlphaMode
}.

Definition Material_default : Material :=
  {| Material_diffuseMapIndex := StaticTexture_value Black;
     Material_specularMapIndex := StaticTexture_value Black;
     Material_normalMapIndex := StaticTexture_value FlatNormal;
     Material_emissiveMapIndex := StaticTexture_value Black;
     Material_alphaMode := OPAQUE |}.

Definition Material_IsOpaque (m : Material) : bool :=
  AlphaMode_eqb (Material_alphaMode m) OPAQUE.
Definition Material_IsEmissive (m : Material) : bool :=
  negb (Material_emissiveMapIndex m =? StaticTexture_value Black).

(** *** [struct Instance] *)
Record Instance := mkInstance {
  Instance_rotation : float4x4;
  Instance_rotationPrev : float4x4;
  Instance_position : double3;
  Instance_positionPrev : double3;
  Instance_scale : float3;
  Instance_meshIndex : N;
  Instance_materialIndex : N;
  Instance_allowUpdate : bool
}.

(** The default member initialisers of [Instance]. *)
Definition Instance_default : Instance :=
  {| Instance_rotation := float4x4_Identity;
     Instance_rotationPrev := float4x4_Identity;
     Instance_position := double3_Zero;
     Instance_positionPrev := double3_Zero;
     Instance_scale := float3_splat f_one;
     Instance_meshIndex := InvalidIndex;
     Instance_materialIndex := InvalidIndex;
     Instance_allowUpdate := false |}.

(** *** [struct Mesh] *)
Record Mesh := mkMesh {
  Mesh_aabb : cBoxf;
  Mesh_vertexOffset : N;
  Mesh_indexOffset : N;
  Mesh_indexNum : N;
  Mesh_vertexNum : N;
  Mesh_blasIndex : N
}.

(** *** [struct Vertex], [struct UnpackedVertex], [struct Primitive] *)
Record Vertex := mkVertex {
  Vertex_position : float3;
  Vertex_uv : N;
  Vertex_normal : N;
  Vertex_tangent : N
}.

Record UnpackedVertex := mkUnpackedVertex {
  UnpackedVertex_position : float3;
  UnpackedVertex_uv : float * float;
  UnpackedVertex_normal : float3;
  UnpackedVertex_tangent : float4
}.

Record Primitive := mkPrimitive {
  Primitive_worldToUvUnits : float;
  Primitive_curvature : float
}.

(** Value-initialised elements, as [resize] would append them. *)
Definition Vertex_zero : Vertex :=
  mkVertex (float3_splat f_zero) 0 0 0.
Definition UnpackedVertex_zero : UnpackedVertex :=
  mkUnpackedVertex (float3_splat f_zero) (f_zero, f_zero)
    (float3_splat f_zero) (mkVec4 f_zero f_zero f_zero f_zero).
Definition Primitive_zero : Primitive := mkPrimitive f_zero f_zero.

(** *** [struct AnimationNode] *)
Record AnimationNode := mkAnimationNode {
  AnimationNode_positionValues : list double3;
  AnimationNode_rotationValues : list float4;
  AnimationNode_scaleValues : list float3;
  AnimationNode_positionKeys : list float;
  AnimationNode_rotationKeys : list float;
  AnimationNode_scaleKeys : list float;
  AnimationNode_mTransform : float4x4
}.

(** *** [struct NodeTree] *)
Inductive NodeTree := mkNodeTree {
  NodeTree_children : list NodeTree;
  NodeTree_instances : list N;
  NodeTree_mTransform : float4x4;
  NodeTree_hash : N;
  NodeTree_animationNodeIndex : N
}.

(** *** [struct Animation] *)
Record Animation := mkAnimation {
  Animation_animationNodes : list AnimationNode;
  Animation_rootNode : NodeTree;
  Animation_cameraNode : NodeTree;
  Animation_animationName : string;
  Animation_durationMs : float;
  Animation_animationProgress : float;
  Animation_sign : float;
  Animation_normalizedTime : float;
  Animation_hasCameraAnimation : bool
}.

(** *** [struct Scene]

    [textures] holds owning pointers to heap-allocated [Texture] objects; a
    pointer is an address, [nullptr] is address 0. *)
Record Scene := mkScene {
  Scene_textures : list N;
  Scene_vertices : list Vertex;
  Scene_unpackedVertices : list UnpackedVertex;
  Scene_indices : list N;
  Scene_primitives : list Primitive;
  Scene_materials : list Material;
  Scene_instances : list Instance;
  Scene_meshes : list Mesh;
  Scene_animations : list Animation;
  Scene_mSceneToWorld : float4x4;
  Scene_aabb : cBoxf
}.

Definition nullptr : N := 0.

(** The free store, as far as [Scene] is concerned, is the set of the
    addresses of the [Texture] objects that are alive.

    [delete p]: nothing happens for [nullptr], a live object is destroyed,
    and anything else (a dangling pointer, a second [delete]) is undefined,
    which is the absence of a result here. *)
Definition delete_Texture (p : N) (h : gset N) : option (gset N) :=
  if decide (p = nullptr) then Some h
  else if decide (p ∈ h) then Some (h ∖ {[p]})
  else None.

(** [for (auto texture : textures) delete texture;] *)
Fixpoint delete_each (ps : list N) (h : gset N) : option (gset N) :=
  match ps with
  | [] => Some h
  | p :: ps' =>
      match delete_Texture p h with
      | Some h' => delete_each ps' h'
      | None => None
      end
  end.

Definition Scene_set_textures (v : list N) (s : Scene) : Scene :=
  mkScene v (Scene_vertices s) (Scene_unpackedVertices s) (Scene_indices s)
    (Scene_primitives s) (Scene_materials s) (Scene_instances s)
    (Scene_meshes s) (Scene_animations s) (Scene_mSceneToWorld s)
    (Scene_aabb s).

Definition Scene_set_instances (v : list Instance) (s : Scene) : Scene :=
  mkScene (Scene_textures s) (Scene_vertices s) (Scene_unpackedVertices s)
    (Scene_indices s) (Scene_primitives s) (Scene_materials s) v
    (Scene_meshes s) (Scene_animations s) (Scene_mSceneToWorld s)
    (Scene_aabb s).

Definition Scene_set_animations (v : list Animation) (s : Scene) : Scene :=
  mkScene (Scene_textures s) (Scene_vertices s) (Scene_unpackedVertices s)
    (Scene_indices s) (Scene_primitives s) (Scene_materials s)
    (Scene_instances s) (Scene_meshes s) v (Scene_mSceneToWorld s)
    (Scene_aabb s).

(** [Scene::UnloadTextureData], on the free store and the scene. *)
Definition Scene_UnloadTextureData (h : gset N) (s : Scene)
  : option (gset N * Scene) :=
  match delete_each (Scene_textures s) h with
  | Some h' =>
      Some (h', Scene_set_textures
                  (vector_shrink_to_fit
                     (vector_resize 0 nullptr (Scene_textures s))) s)
  | None => None
  end.

(** [Scene::~Scene() { UnloadTextureData(); }] *)
Definition Scene_destructor (h : gset N) (s : Scene)
  : option (gset N * Scene) :=
  Scene_UnloadTextureData h s.

(** [Scene::UnloadGeometryData] *)
Definition Scene_UnloadGeometryData (s : Scene) : Scene :=
  mkScene (Scene_textures s)
    (vector_shrink_to_fit (vector_resize 0 Vertex_zero (Scene_vertices s)))
    (vector_shrink_to_fit
       (vector_resize 0 UnpackedVertex_zero (Scene_unpackedVertices s)))
    (vector_shrink_to_fit (vector_resize 0 0 (Scene_indices s)))
    (vector_shrink_to_fit
       (vector_resize 0 Primitive_zero (Scene_primitives s)))
    (Scene_materials s) (Scene_instances s) (Scene_meshes s)
    (Scene_animations s) (Scene_mSceneToWorld s) (Scene_aabb s).

(** *** Key-frame sampling ([AnimationNode::Update]) *)

Section Channel.
Context {V : Type} (interp : V -> V -> float -> V).

(** A channel is the sequence of its (time, value) pairs. *)
Definition track (keys : list float) (values : list V)
  : list (float * V) :=
  zip keys values.

(** Modelled from the spec: the interpolation factor of
    [AnimationNode::Update], whose body is not in the header.
    [f = (time - t0) / (t1 - t0)], and 0 when [t1 == t0]. *)
Definition factor (t0 t1 time : float) : float :=
  if f_eqb t1 t0 then f_zero
  else f_div (f_sub time t0) (f_sub t1 t0).

(** Modelled from the spec: the search of [AnimationNode::Update] for
    the bracketing pair [(t0,v0),(t1,v1)] with [t0 <= time <= t1]. *)
Fixpoint bracket (tr : list (float * V)) (time : float)
  : option ((float * V) * (float * V)) :=
  match tr with
  | k0 :: ((k1 :: _) as rest) =>
      if f_leb (fst k0) time && f_leb time (fst k1)
      then Some (k0, k1)
      else bracket rest time
  | _ => None
  end.

(** Modelled from the spec: the sampling policy of
    [AnimationNode::Update] for one channel.  A channel without keys
    contributes [identity]; a time that precedes the first key takes the
    first value and a time that follows the last key takes the last value;
    otherwise the values of the bracketing pair are interpolated, also at a
    time equal to a key time.  Malformed keys that bracket nothing fall
    back to the last value. *)
Definition sample (identity : V) (tr : list (float * V)) (time : float)
  : V :=
  match tr with
  | [] => identity
  | first :: _ =>
      let lst := List.last tr first in
      if f_ltb time (fst first) then snd first
      else if f_ltb (fst lst) time then snd lst
      else match bracket tr time with
           | Some (k0, k1) =>
               interp (snd k0) (snd k1) (factor (fst k0) (fst k1) time)
           | None => snd lst
           end
  end.
End Channel.

(** Component-wise linear interpolation of positions and scales. *)
Definition double3_lerp (a b : double3) (f : float) : double3 :=
  mkVec3 (d_lerp (v3x a) (v3x b) f) (d_lerp (v3y a) (v3y b) f)
    (d_lerp (v3z a) (v3z b) f).

Definition float3_lerp (a b : float3) (f : float) : float3 :=
  mkVec3 (f_lerp (v3x a) (v3x b) f) (f_lerp (v3y a) (v3y b) f)
    (f_lerp (v3z a) (v3z b) f).

(** Modelled from the spec: the rotation interpolation of
    [AnimationNode::Update], spherical and along the shortest arc: one
    quaternion is negated when the dot product is negative. *)
Definition slerp_shortest (a b : float4) (f : float) : float4 :=
  if f_ltb (q_dot a b) f_zero then q_slerp (q_neg a) b f
  else q_slerp a b f.

(** The unit quaternion: no rotation. *)
Definition float4_identity : float4 := mkVec4 f_zero f_zero f_zero f_one.

Definition samplePosition (n : AnimationNode) (time : float) : double3 :=
  sample double3_lerp double3_Zero
    (track (AnimationNode_positionKeys n) (AnimationNode_positionValues n))
    time.

Definition sampleRotation (n : AnimationNode) (time : float) : float4 :=
  sample slerp_shortest float4_identity
    (track (AnimationNode_rotationKeys n) (AnimationNode_rotationValues n))
    time.

Definition sampleScale (n : AnimationNode) (time : float) : float3 :=
  sample float3_lerp (float3_splat f_one)
    (track (AnimationNode_scaleKeys n) (AnimationNode_scaleValues n))
    time.

Definition AnimationNode_set_mTransform (m : float4x4) (n : AnimationNode)
  : AnimationNode :=
  mkAnimationNode (AnimationNode_positionValues n)
    (AnimationNode_rotationValues n) (AnimationNode_scaleValues n)
    (AnimationNode_positionKeys n) (AnimationNode_rotationKeys n)
    (AnimationNode_scaleKeys n) m.

(** Modelled from the spec: [AnimationNode::Update], declared in the
    header and defined elsewhere.  The three channels are sampled
    independently at [time] and the cached transform becomes
    translation x rotation x scale; nothing else of the node changes. *)
Definition AnimationNode_Update (time : float) (n : AnimationNode)
  : AnimationNode :=
  AnimationNode_set_mTransform
    (m_mul (m_mul (m_translation (samplePosition n time))
              (m_rotation (sampleRotation n time)))
       (m_scale (sampleScale n time)))
    n.

(** *** Transform propagation ([NodeTree::Animate]) *)

(** Modelled from the spec: step 1 of [NodeTree::Animate], the local
    transform of a node: the cached transform of its animation node, or
    its own static transform when the index is [InvalidIndex].  An index
    outside [animationNodes] has no defined result. *)
Definition localTransform (animationNodes : list AnimationNode)
    (n : NodeTree) : option float4x4 :=
  if NodeTree_animationNodeIndex n =? InvalidIndex
  then Some (NodeTree_mTransform n)
  else AnimationNode_mTransform
         <$> vector_at animationNodes (NodeTree_animationNodeIndex n).

(** Modelled from the spec: step 3 of [NodeTree::Animate] for one
    instance: the previous-frame fields take the current transform, then
    the current fields take the rotation and position of [world]. *)
Definition Instance_moveTo (world : float4x4) (i : Instance) : Instance :=
  mkInstance (m_rotationPart world) (Instance_rotation i)
    (m_position world) (Instance_position i)
    (Instance_scale i) (Instance_meshIndex i) (Instance_materialIndex i)
    (Instance_allowUpdate i).

(** Modelled from the spec: the access of [NodeTree::Animate] to one
    instance.  [scene.instances[instanceIndex]] is updated in place; an
    index outside the vector has no defined result. *)
Definition writeInstance (world : float4x4) (instanceIndex : N)
    (s : Scene) : option Scene :=
  match vector_at (Scene_instances s) instanceIndex with
  | Some i =>
      Some (Scene_set_instances
              (vector_set (Scene_instances s) instanceIndex
                 (Instance_moveTo world i)) s)
  | None => None
  end.

(** Modelled from the spec: the loop of [NodeTree::Animate] over the
    instance indices of the node. *)
Fixpoint writeInstances (world : float4x4) (instanceIndices : list N)
    (s : Scene) : option Scene :=
  match instanceIndices with
  | [] => Some s
  | i :: rest =>
      match writeInstance world i s with
      | Some s' => writeInstances world rest s'
      | None => None
      end
  end.

(** Modelled from the spec: [NodeTree::Animate], declared in the header
    and defined elsewhere.  The state [st] is the scene and the memory
    behind [outTransform] ([None] for [nullptr]).  The world transform is
    [parentTransform x local]; with [outTransform] null it is written to
    every instance of the node, otherwise it is stored through the pointer
    and no instance is touched; then the children are visited with the
    world transform as their parent transform. *)
Fixpoint NodeTree_Animate (n : NodeTree)
    (animationNodes : list AnimationNode) (parentTransform : float4x4)
    (st : Scene * option float4x4) : option (Scene * option float4x4) :=
  match localTransform animationNodes n with
  | None => None
  | Some local =>
      let world := m_mul parentTransform local in
      let visited :=
        match snd st with
        | Some _ => Some (fst st, Some world)
        | None =>
            match writeInstances world (NodeTree_instances n) (fst st) with
            | Some s' => Some (s', None)
            | None => None
            end
        end in
      (fix children (cs : list NodeTree)
           (acc : option (Scene * option float4x4)) :=
         match cs with
         | [] => acc
         | c :: cs' =>
             match acc with
             | Some st' =>
                 children cs' (NodeTree_Animate c animationNodes world st')
             | None => None
             end
         end) (NodeTree_children n) visited
  end.

(** *** The writes of a traversal

    What [NodeTree::Animate] does to the instances is a sequence of writes,
    one (instance index, world transform) pair per visit, in visiting order:
    the instances of a node first, then those of its children, left to
    right.  [NodeTree_writes] lists them; [NodeTree_Animate_writes] below
    shows that the traversal performs exactly these writes. *)
Fixpoint NodeTree_writes (animationNodes : list AnimationNode)
    (parentTransform : float4x4) (n : NodeTree)
  : option (list (N * float4x4)) :=
  match localTransform animationNodes n with
  | None => None
  | Some local =>
      let world := m_mul parentTransform local in
      match
        (fix children (cs : list NodeTree) : option (list (N * float4x4)) :=
           match cs with
           | [] => Some []
           | c :: cs' =>
               match NodeTree_writes animationNodes world c, children cs' with
               | Some a, Some b => Some (a ++ b)
               | _, _ => None
               end
           end) (NodeTree_children n)
      with
      | Some below =>
          Some (map (fun i => (i, world)) (NodeTree_instances n) ++ below)
      | None => None
      end
  end.

(** The two loops over the children, by name. *)
Fixpoint animateChildren (cs : list NodeTree)
    (animationNodes : list AnimationNode) (world : float4x4)
    (acc : option (Scene * option float4x4))
  : option (Scene * option float4x4) :=
  match cs with
  | [] => acc
  | c :: cs' =>
      match acc with
      | Some st' =>
          animateChildren cs' animationNodes world
            (NodeTree_Animate c animationNodes world st')
      | None => None
      end
  end.

Fixpoint writesChildren (animationNodes : list AnimationNode)
    (world : float4x4) (cs : list NodeTree)
  : option (list (N * float4x4)) :=
  match cs with
  | [] => Some []
  | c :: cs' =>
      match NodeTree_writes animationNodes world c,
            writesChildren animationNodes world cs' with
      | Some a, Some b => Some (a ++ b)
      | _, _ => None
      end
  end.

Fixpoint applyWrites (ws : list (N * float4x4)) (s : Scene)
  : option Scene :=
  match ws with
  | [] => Some s
  | w :: rest =>
      match writeInstance (snd w) (fst w) s with
      | Some s' => applyWrites rest s'
      | None => None
      end
  end.

(** A result of [applyWrites], or its failure, as a traversal state. *)
Definition asState (r : option Scene) : option (Scene * option float4x4) :=
  match r with
  | Some s' => Some (s', None)
  | None => None
  end.

(** The transforms a sequence of writes assigns to instance [i], in order. *)
Definition assigned (i : N) (ws : list (N * float4x4)) : list float4x4 :=
  map snd (filter (fun w => fst w = i) ws).

(** No write falls outside a vector of [count] instances. *)
Definition inBounds (count : nat) (ws : list (N * float4x4)) : Prop :=
  Forall (fun w => (N.to_nat (fst w) < count)%nat) ws.

(** A tree is valid for a list of animation nodes and a number of
    instances when every animation node index is [InvalidIndex] or inside
    the list and every instance index is inside the instances. *)
Fixpoint NodeTree_valid (animationNodes : list AnimationNode) (count : nat)
    (n : NodeTree) : bool :=
  ((NodeTree_animationNodeIndex n =? InvalidIndex)
   || (NodeTree_animationNodeIndex n <? N.of_nat (length animationNodes)))
  && forallb (fun i => i <? N.of_nat count) (NodeTree_instances n)
  && forallb (NodeTree_valid animationNodes count) (NodeTree_children n).

(** The instance indices that a tree lists, node by node. *)
Fixpoint NodeTree_indices (n : NodeTree) : list N :=
  NodeTree_instances n ++ flat_map NodeTree_indices (NodeTree_children n).


(** Modelled from the spec: steps 1, 2 and 5 of [NodeTree::Animate] as a
    relation.  [reaches animationNodes P root n W]: a traversal of [root]
    under the parent transform [P] visits the node [n] with the world
    transform [W].  The root has the world transform [P x local]; a node
    below it is visited by the traversal of a child under the root's world
    transform. *)
Inductive reaches (animationNodes : list AnimationNode)
  : float4x4 -> NodeTree -> NodeTree -> float4x4 -> Prop :=
  | reaches_here (P : float4x4) (n : NodeTree) (local : float4x4) :
      localTransform animationNodes n = Some local ->
      reaches animationNodes P n n (m_mul P local)
  | reaches_below (P : float4x4) (n c m : NodeTree) (local W : float4x4) :
      localTransform animationNodes n = Some local ->
      c ∈ NodeTree_children n ->
      reaches animationNodes (m_mul P local) c m W ->
      reaches animationNodes P n m W.

(** *** The per-frame entry point ([Scene::Animate]) *)

(** Modelled from the spec: the playback state that [Scene::Animate]
    leaves in the animation: the updated nodes, the new progress and the
    new sign. *)
Definition Animation_play (nodes : list AnimationNode)
    (normalizedTime sign : float) (a : Animation) : Animation :=
  mkAnimation nodes (Animation_rootNode a) (Animation_cameraNode a)
    (Animation_animationName a) (Animation_durationMs a)
    normalizedTime sign normalizedTime (Animation_hasCameraAnimation a).

Section Playback.
(** Step 2 of [Scene::Animate] brings the advanced progress back into
    [0,1], by wrapping or by reflection with a flip of [sign].  The
    specification fixes neither the formula nor what selects the policy
    of an animation; the function from the animation and the advanced
    progress to the new progress and sign is a parameter. *)
Variable boundProgress : Animation -> float -> float * float.

(** Modelled from the spec: [Scene::Animate], declared in the header and
    defined elsewhere.  The result is the scene, the progress behind
    [animationProgress] and the memory behind [outCameraTransform]. *)
Definition Scene_Animate (animationSpeed elapsedTime : float)
    (animationProgress : float) (animationIndex : N)
    (outCameraTransform : option float4x4) (s : Scene)
  : option (Scene * float * option float4x4) :=
  if N.of_nat (length (Scene_animations s)) <=? animationIndex
  then Some (s, animationProgress, outCameraTransform)
  else
    match vector_at (Scene_animations s) animationIndex with
    | None => None
    | Some a =>
        let advanced :=
          f_add animationProgress
            (f_div (f_mul elapsedTime animationSpeed)
               (Animation_durationMs a)) in
        let bounded := boundProgress a advanced in
        let timeMs := f_mul (fst bounded) (Animation_durationMs a) in
        let nodes :=
          map (AnimationNode_Update timeMs)
            (Animation_animationNodes a) in
        let a' := Animation_play nodes (fst bounded) (snd bounded) a in
        let s1 :=
          Scene_set_animations
            (vector_set (Scene_animations s) animationIndex a') s in
        match NodeTree_Animate (Animation_rootNode a') nodes
                float4x4_Identity (s1, None) with
        | None => None
        | Some (s2, _) =>
            if Animation_hasCameraAnimation a'
            then
              match NodeTree_Animate (Animation_cameraNode a') nodes
                      float4x4_Identity (s2, outCameraTransform) with
              | None => None
              | Some (s3, out) => Some (s3, fst bounded, out)
              end
            else Some (s2, fst bounded, outCameraTransform)
        end
    end.
End Playback.
End Model.

(** ** The remaining inline members of the header *)

(** [Material::IsAlphaOpaque], [Material::IsTransparent], [Material::IsOff] *)
Definition Material_IsAlphaOpaque (m : Material) : bool :=
  AlphaMode_eqb (Material_alphaMode m) PREMULTIPLIED.
Definition Material_IsTransparent (m : Material) : bool :=
  AlphaMode_eqb (Material_alphaMode m) TRANSPARENT.
Definition Material_IsOff (m : Material) : bool :=
  AlphaMode_eqb (Material_alphaMode m) OFF.

Definition Material_set_emissiveMapIndex (i : N) (m : Material) : Material :=
  mkMaterial (Material_diffuseMapIndex m) (Material_specularMapIndex m)
    (Material_normalMapIndex m) i (Material_alphaMode m).

Section TextureModel.
(** [nri::Format] is declared by the graphics interface, outside the
    header. *)
Variable Format : Type.

(** [struct Texture]; [mips] is a pointer, the sizes are 16-bit values. *)
Record Texture := mkTexture {
  Texture_mips : N;
  Texture_name : string;
  Texture_hash : N;
  Texture_alphaMode : AlphaMode;
  Texture_format : Format;
  Texture_width : N;
  Texture_height : N;
  Texture_depth : N;
  Texture_mipNum : N;
  Texture_arraySize : N
}.

(** [Texture::OverrideFormat]: [this->format = fmt;] *)
Definition Texture_OverrideFormat (fmt : Format) (t : Texture) : Texture :=
  mkTexture (Texture_mips t) (Texture_name t) (Texture_hash t)
    (Texture_alphaMode t) fmt (Texture_width t) (Texture_height t)
    (Texture_depth t) (Texture_mipNum t) (Texture_arraySize t).

(** The inline getters. *)
Definition Texture_GetArraySize (t : Texture) : N := Texture_arraySize t.
Definition Texture_GetMipNum (t : Texture) : N := Texture_mipNum t.
Definition Texture_GetWidth (t : Texture) : N := Texture_width t.
Definition Texture_GetHeight (t : Texture) : N := Texture_height t.
Definition Texture_GetDepth (t : Texture) : N := Texture_depth t.
Definition Texture_GetFormat (t : Texture) : Format := Texture_format t.
End TextureModel.

Arguments Texture_OverrideFormat {Format} fmt t.
Arguments Texture_GetArraySize {Format} t.
Arguments Texture_GetMipNum {Format} t.
Arguments Texture_GetWidth {Format} t.
Arguments Texture_GetHeight {Format} t.
Arguments Texture_GetDepth {Format} t.
Arguments Texture_GetFormat {Format} t.

(** A scene owns its textures in a free store when every non-null pointer
    of [textures] is listed once and is live. *)
Definition Scene_owns `{L : MathLib} (h : gset N) (s : Scene) : Prop :=
  NoDup (filter (fun p => p ≠ nullptr) (Scene_textures s))
  /\ (forall p, p ∈ Scene_textures s -> p ≠ nullptr -> p ∈ h).

(** ** A reference math library: exact rational arithmetic

    Every scalar is a rational in lowest terms, so that equal numbers are
    equal terms.  The spherical interpolation is replaced by the chord
    between the two quaternions, which meets the arc at the factors 0 and 1.
    The library serves to run the model on concrete scenes. *)
Module QMath.
Local Open Scope Q_scope.

Definition add (a b : Q) : Q := Qred (a + b).
Definition sub (a b : Q) : Q := Qred (a - b).
Definition mul (a b : Q) : Q := Qred (a * b).
Definition div (a b : Q) : Q := Qred (a / b).
Definition eqb (a b : Q) : bool := Qeq_bool a b.
Definition leb (a b : Q) : bool := Qle_bool a b.
Definition ltb (a b : Q) : bool := negb (Qle_bool b a).
Definition lerp (a b f : Q) : Q := Qred (a + (b - a) * f).

Definition dot (a b : vec4 Q) : Q :=
  Qred (v4x a * v4x b + v4y a * v4y b + v4z a * v4z b + v4w a * v4w b).
Definition neg (a : vec4 Q) : vec4 Q :=
  mkVec4 (Qred (- v4x a)) (Qred (- v4y a)) (Qred (- v4z a))
    (Qred (- v4w a)).
Definition chord (a b : vec4 Q) (f : Q) : vec4 Q :=
  mkVec4 (lerp (v4x a) (v4x b) f) (lerp (v4y a) (v4y b) f)
    (lerp (v4z a) (v4z b) f) (lerp (v4w a) (v4w b) f).

(** A matrix is the vector of its four rows; it acts on column vectors. *)
Definition matrix : Type := vec4 (vec4 Q).

Definition column (m : matrix) (pick : vec4 Q -> Q) : vec4 Q :=
  mkVec4 (pick (v4x m)) (pick (v4y m)) (pick (v4z m)) (pick (v4w m)).

Definition row_times (r : vec4 Q) (m : matrix) : vec4 Q :=
  mkVec4 (dot r (column m v4x)) (dot r (column m v4y))
    (dot r (column m v4z)) (dot r (column m v4w)).

Definition mmul (a b : matrix) : matrix :=
  mkVec4 (row_times (v4x a) b) (row_times (v4y a) b)
    (row_times (v4z a) b) (row_times (v4w a) b).

Definition identity : matrix :=
  mkVec4 (mkVec4 1 0 0 0) (mkVec4 0 1 0 0) (mkVec4 0 0 1 0)
    (mkVec4 0 0 0 1).

Definition translation (p : vec3 Q) : matrix :=
  mkVec4 (mkVec4 1 0 0 (v3x p)) (mkVec4 0 1 0 (v3y p))
    (mkVec4 0 0 1 (v3z p)) (mkVec4 0 0 0 1).

Definition scaling (s : vec3 Q) : matrix :=
  mkVec4 (mkVec4 (v3x s) 0 0 0) (mkVec4 0 (v3y s) 0 0)
    (mkVec4 0 0 (v3z s) 0) (mkVec4 0 0 0 1).

Definition rotation (q : vec4 Q) : matrix :=
  let x := v4x q in let y := v4y q in let z := v4z q in let w := v4w q in
  mkVec4
    (mkVec4 (Qred (1 - 2 * (y * y + z * z))) (Qred (2 * (x * y - z * w)))
       (Qred (2 * (x * z + y * w))) 0)
    (mkVec4 (Qred (2 * (x * y + z * w))) (Qred (1 - 2 * (x * x + z * z)))
       (Qred (2 * (y * z - x * w))) 0)
    (mkVec4 (Qred (2 * (x * z - y * w))) (Qred (2 * (y * z + x * w)))
       (Qred (1 - 2 * (x * x + y * y))) 0)
    (mkVec4 0 0 0 1).

(** The matrix without its translation column. *)
Definition rotationPart (m : matrix) : matrix :=
  let clear (r : vec4 Q) := mkVec4 (v4x r) (v4y r) (v4z r) 0 in
  mkVec4 (clear (v4x m)) (clear (v4y m)) (clear (v4z m)) (v4w m).

(** The translation column. *)
Definition position (m : matrix) : vec3 Q :=
  mkVec3 (v4w (v4x m)) (v4w (v4y m)) (v4w (v4z m)).
End QMath.

(** The laws hold because [<] and [<=] on the rationals are a strict and a
    total order. *)
Definition QLib : MathLib.
Proof.
  refine {| float := Q; double := Q; float4x4 := QMath.matrix;
            cBoxf := vec3 Q * vec3 Q;
            f_zero := 0%Q; f_one := 1%Q; d_zero := 0%Q;
            f_add := QMath.add; f_sub := QMath.sub; f_mul := QMath.mul;
            f_div := QMath.div; f_eqb := QMath.eqb; f_ltb := QMath.ltb;
            f_leb := QMath.leb; f_lerp := QMath.lerp; d_lerp := QMath.lerp;
            q_dot := QMath.dot; q_neg := QMath.neg; q_slerp := QMath.chord;
            float4x4_Identity := QMath.identity; m_mul := QMath.mmul;
            m_translation := QMath.translation; m_rotation := QMath.rotation;
            m_scale := QMath.scaling; m_rotationPart := QMath.rotationPart;
            m_position := QMath.position |}.
  - intros a b c. unfold QMath.ltb. rewrite !negb_true_iff.
    intros Hab Hbc. apply not_true_iff_false. rewrite Qle_bool_iff.
    apply not_true_iff_false in Hab, Hbc. rewrite Qle_bool_iff in Hab, Hbc.
    apply Qnot_le_lt in Hab, Hbc. apply Qlt_not_le.
    eapply Qlt_trans; eassumption.
  - intros a b c. unfold QMath.ltb, QMath.leb. rewrite !negb_true_iff.
    intros Hab Hbc. apply not_true_iff_false. rewrite Qle_bool_iff.
    apply not_true_iff_false in Hab. rewrite Qle_bool_iff in Hab, Hbc.
    apply Qnot_le_lt in Hab. apply Qlt_not_le.
    eapply Qlt_le_trans; eassumption.
  - intros a b. unfold QMath.ltb, QMath.leb. rewrite negb_true_iff. tauto.
Defined.

(** ** Concrete scenes, over the rational library *)
Module Sample.
Local Existing Instance QLib.
Local Open Scope Q_scope.

Definition box : cBoxf := (mkVec3 0 0 0, mkVec3 1 1 1).

(** An animated joint that slides along x: 0 at 0 ms, 10 at 1000 ms. *)
Definition slide : AnimationNode :=
  mkAnimationNode [mkVec3 0 0 0; mkVec3 10 0 0] [] [] [0; 1000] [] []
    float4x4_Identity.

(** A single node that drives instance 0 by animation node 0. *)
Definition leaf : NodeTree :=
  mkNodeTree [] [0%N] float4x4_Identity 0%N 0%N.

(** A node without instances, children or animation. *)
Definition idle : NodeTree :=
  mkNodeTree [] [] float4x4_Identity 0%N InvalidIndex.

Definition clip : Animation :=
  mkAnimation [slide] leaf idle "slide" 1000 0 1 0 false.

(** Two textures at the addresses 1 and 2, a triangle, two instances and
    one animation. *)
Definition scene : Scene :=
  mkScene [1%N; 2%N]
    [mkVertex (mkVec3 0 0 0) 0 0 0; mkVertex (mkVec3 1 0 0) 0 0 0;
     mkVertex (mkVec3 0 1 0) 0 0 0]
    [mkUnpackedVertex (mkVec3 0 0 0) (0, 0) (mkVec3 0 0 1)
       (mkVec4 1 0 0 1)]
    [0%N; 1%N; 2%N]
    [mkPrimitive 1 0]
    [Material_default]
    [Instance_default; Instance_default]
    [mkMesh box 0 0 3 3 InvalidIndex]
    [clip]
    float4x4_Identity box.

(** The move to [x] on the x axis, and the doubling of every length. *)
Definition move (x : Q) : float4x4 := QMath.translation (mkVec3 x 0 0).
Definition twice : float4x4 := QMath.scaling (mkVec3 2 2 2).

(** A node that doubles every length and drives instance 1. *)
Definition child : NodeTree :=
  mkNodeTree [] [1%N] twice 0%N InvalidIndex.

(** A root that moves by one along x and drives instance 0, with two
    children: a pivot that moves by ten and drives nothing, and [child]. *)
Definition pivot : NodeTree :=
  mkNodeTree [] [] (move 10) 0%N InvalidIndex.
Definition fork : NodeTree :=
  mkNodeTree [pivot; child] [0%N] (move 1) 0%N InvalidIndex.


(** The free store holds the two textures of [scene] and a third object
    at address 7 that belongs to somebody else. *)
Definition heap : gset N := {[1%N; 2%N; 7%N]}.
(** A second scene, which owns the object at address 7. *)
Definition other : Scene :=
  mkScene [7%N] [] [] [] [] [] [] [] [] float4x4_Identity box.

(** A scene whose texture slots were never filled. *)
Definition unfilled : Scene :=
  mkScene [nullptr; nullptr] [] [] [] [] [] [] [] [] float4x4_Identity box.
End Sample.

(** * Properties *)

(** ** Default construction *)

Lemma InvalidIndex_value : InvalidIndex = 4294967295%N.
Proof. reflexivity. Qed.

(** C9: a default-constructed [Instance] has equal current and
    previous-frame transforms (both rotations are the identity matrix, both
    positions the zero vector), scale (1,1,1), [meshIndex] and
    [materialIndex] equal to [InvalidIndex] (the largest 32-bit value), and
    [allowUpdate] false. *)
Theorem Instance_default_state `{L : MathLib} :
  Instance_rotation Instance_default = float4x4_Identity
  /\ Instance_rotationPrev Instance_default = float4x4_Identity
  /\ Instance_position Instance_default = mkVec3 d_zero d_zero d_zero
  /\ Instance_positionPrev Instance_default = mkVec3 d_zero d_zero d_zero
  /\ Instance_rotation Instance_default
     = Instance_rotationPrev Instance_default
  /\ Instance_position Instance_default
     = Instance_positionPrev Instance_default
  /\ Instance_scale Instance_default = mkVec3 f_one f_one f_one
  /\ Instance_meshIndex Instance_default = InvalidIndex
  /\ Instance_materialIndex Instance_default = InvalidIndex
  /\ InvalidIndex = 4294967295%N
  /\ Instance_allowUpdate Instance_default = false.
Proof. repeat split. Qed.

(** ** Unloading transient data *)

Section Unload.
Context `{L : MathLib}.

Lemma vector_resize_0 {A : Type} (fill : A) (v : list A) :
  vector_shrink_to_fit (vector_resize 0 fill v) = [].
Proof. unfold vector_shrink_to_fit, vector_resize. by rewrite take_0. Qed.

Lemma UnloadGeometryData_eq (s : Scene) :
  Scene_UnloadGeometryData s
  = mkScene (Scene_textures s) [] [] [] [] (Scene_materials s)
      (Scene_instances s) (Scene_meshes s) (Scene_animations s)
      (Scene_mSceneToWorld s) (Scene_aabb s).
Proof.
  unfold Scene_UnloadGeometryData. by rewrite !vector_resize_0.
Qed.

Lemma UnloadTextureData_eq (h : gset N) (s : Scene) :
  Scene_UnloadTextureData h s
  = (fun h' => (h', Scene_set_textures [] s))
      <$> delete_each (Scene_textures s) h.
Proof.
  unfold Scene_UnloadTextureData. rewrite vector_resize_0.
  by destruct (delete_each _ _).
Qed.

Lemma UnloadTextureData_inv (h h' : gset N) (s s' : Scene) :
  Scene_UnloadTextureData h s = Some (h', s') ->
  delete_each (Scene_textures s) h = Some h'
  /\ s' = Scene_set_textures [] s.
Proof.
  rewrite UnloadTextureData_eq.
  destruct (delete_each _ _) as [h0|]; simpl; [|done].
  by intros [= <- <-].
Qed.

(** What the loop of deletions leaves alive, when every non-null pointer
    is live and listed once. *)
Lemma delete_each_owned (ps : list N) (h : gset N) :
  NoDup (filter (fun p => p ≠ nullptr) ps) ->
  (forall p, p ∈ ps -> p ≠ nullptr -> p ∈ h) ->
  delete_each ps h
  = Some (h ∖ list_to_set (filter (fun p => p ≠ nullptr) ps)).
Proof.
  revert h. induction ps as [|p ps IH]; intros h Hnd Hlive; simpl.
  - f_equal. set_solver.
  - unfold delete_Texture. destruct (decide (p = nullptr)) as [->|Hp].
    + rewrite filter_cons_False in Hnd |- * by (intros ?; done).
      apply IH; [done|]. intros q Hq. apply Hlive. by right.
    + rewrite filter_cons_True in Hnd |- * by done.
      apply NoDup_cons in Hnd as [Hfresh Hnd].
      rewrite decide_True by (apply Hlive; [left|done]).
      rewrite IH; [f_equal; set_solver|done|].
      intros q Hq Hq0. apply elem_of_difference. split.
      * apply Hlive; [by right|done].
      * intros ->%elem_of_singleton. apply Hfresh.
        by apply list_elem_of_filter.
Qed.
End Unload.

(** C7: the textures a scene owns (the non-null pointers of [textures], each
    live and listed once) are destroyed by [UnloadTextureData], and by the
    destructor, which performs the same unload: afterwards exactly the live
    objects outside the list are still alive, and [textures] is empty. *)
Theorem UnloadTextureData_destroys_textures `{L : MathLib}
    (h : gset N) (s : Scene) :
  NoDup (filter (fun p => p ≠ nullptr) (Scene_textures s)) ->
  (forall p, p ∈ Scene_textures s -> p ≠ nullptr -> p ∈ h) ->
  exists h' s',
    Scene_UnloadTextureData h s = Some (h', s')
    /\ Scene_destructor h s = Some (h', s')
    /\ Scene_textures s' = []
    /\ (forall p, p ∈ Scene_textures s -> p ≠ nullptr -> p ∉ h')
    /\ (forall p, p ∈ h' <-> p ∈ h /\ (p ∈ Scene_textures s -> p = nullptr)).
Proof.
  intros Hnd Hlive.
  exists (h ∖ list_to_set (filter (fun p => p ≠ nullptr) (Scene_textures s))),
    (Scene_set_textures [] s).
  assert (Scene_UnloadTextureData h s = Some
    (h ∖ list_to_set (filter (fun p => p ≠ nullptr) (Scene_textures s)),
     Scene_set_textures [] s)) as Heq.
  { rewrite UnloadTextureData_eq, delete_each_owned by done. done. }
  split; [done|]. split; [done|]. split; [done|]. split.
  - intros p Hp Hp0. rewrite elem_of_difference, elem_of_list_to_set.
    intros [_ Hout]. apply Hout. by apply list_elem_of_filter.
  - intros p. rewrite elem_of_difference, elem_of_list_to_set.
    rewrite list_elem_of_filter. split.
    + intros [Hin Hout]. split; [done|]. intros Hp.
      destruct (decide (p = nullptr)); [done|]. by destruct Hout.
    + intros [Hin Hnull]. split; [done|]. intros [Hp0 Hp]. auto.
Qed.

Lemma UnloadTextureData_destroys_textures_witness :
  exists h' s',
    Scene_UnloadTextureData Sample.heap Sample.scene = Some (h', s')
    /\ Scene_destructor Sample.heap Sample.scene = Some (h', s')
    /\ Scene_textures s' = []
    /\ (forall p, p ∈ Scene_textures Sample.scene -> p ≠ nullptr -> p ∉ h')
    /\ (forall p, p ∈ h' <->
          p ∈ Sample.heap /\ (p ∈ Scene_textures Sample.scene -> p = nullptr)).
Proof.
  apply (UnloadTextureData_destroys_textures (L := QLib)
           Sample.heap Sample.scene).
  - repeat constructor; set_solver.
  - intros p Hp _. unfold Sample.heap. simpl in Hp. set_solver.
Defined.

(** The sample scene gives up its two textures; the foreign object stays. *)
Lemma Sample_unload :
  Scene_UnloadTextureData Sample.heap Sample.scene
  = Some ({[7%N]}, Scene_set_textures [] Sample.scene).
Proof.
  rewrite UnloadTextureData_eq. simpl Scene_textures.
  rewrite delete_each_owned.
  - reflexivity.
  - repeat constructor; set_solver.
  - intros p Hp _. unfold Sample.heap. set_solver.
Qed.

(** C8: [UnloadGeometryData] empties the four geometry buffers ([vertices],
    [unpackedVertices], [indices], [primitives]) and leaves every other
    field of the scene as it was; [UnloadTextureData] leaves every field
    other than [textures] as it was. *)
Theorem Unload_frame `{L : MathLib} (s : Scene) :
  (let s' := Scene_UnloadGeometryData s in
   Scene_vertices s' = [] /\ Scene_unpackedVertices s' = []
   /\ Scene_indices s' = [] /\ Scene_primitives s' = []
   /\ Scene_textures s' = Scene_textures s
   /\ Scene_materials s' = Scene_materials s
   /\ Scene_instances s' = Scene_instances s
   /\ Scene_meshes s' = Scene_meshes s
   /\ Scene_animations s' = Scene_animations s
   /\ Scene_mSceneToWorld s' = Scene_mSceneToWorld s
   /\ Scene_aabb s' = Scene_aabb s)
  /\ (forall h h' s',
        Scene_UnloadTextureData h s = Some (h', s') ->
        Scene_vertices s' = Scene_vertices s
        /\ Scene_unpackedVertices s' = Scene_unpackedVertices s
        /\ Scene_indices s' = Scene_indices s
        /\ Scene_primitives s' = Scene_primitives s
        /\ Scene_materials s' = Scene_materials s
        /\ Scene_instances s' = Scene_instances s
        /\ Scene_meshes s' = Scene_meshes s
        /\ Scene_animations s' = Scene_animations s
        /\ Scene_mSceneToWorld s' = Scene_mSceneToWorld s
        /\ Scene_aabb s' = Scene_aabb s).
Proof.
  split.
  - cbv zeta. rewrite UnloadGeometryData_eq. repeat split.
  - intros h h' s' [_ ->]%UnloadTextureData_inv. repeat split.
Qed.

Lemma Unload_frame_witness :
  Scene_UnloadTextureData Sample.heap Sample.scene
  = Some ({[7%N]}, Scene_set_textures [] Sample.scene)
  /\ Scene_vertices (Scene_set_textures [] Sample.scene)
     = Scene_vertices Sample.scene
  /\ Scene_instances (Scene_set_textures [] Sample.scene)
     = Scene_instances Sample.scene
  /\ Scene_animations (Scene_set_textures [] Sample.scene)
     = Scene_animations Sample.scene.
Proof.
  pose proof Sample_unload as Hrun.
  split; [exact Hrun|].
  destruct (Unload_frame (L := QLib) Sample.scene) as [_ Htex].
  destruct (Htex _ _ _ Hrun) as (Hv & _ & _ & _ & _ & Hi & _ & Ha & _).
  repeat split; assumption.
Defined.

(** C10: both unload operations are idempotent.  A second
    [UnloadGeometryData] changes nothing; after a first [UnloadTextureData]
    the vector is empty, so a second call, or the destructor, deletes
    nothing and leaves the free store and the scene as the first call left
    them. *)
Theorem Unload_idempotent `{L : MathLib} (s : Scene) :
  Scene_UnloadGeometryData (Scene_UnloadGeometryData s)
  = Scene_UnloadGeometryData s
  /\ Scene_vertices (Scene_UnloadGeometryData s) = []
  /\ Scene_unpackedVertices (Scene_UnloadGeometryData s) = []
  /\ Scene_indices (Scene_UnloadGeometryData s) = []
  /\ Scene_primitives (Scene_UnloadGeometryData s) = []
  /\ (forall h h' s',
        Scene_UnloadTextureData h s = Some (h', s') ->
        Scene_textures s' = []
        /\ delete_each (Scene_textures s') h' = Some h'
        /\ Scene_UnloadTextureData h' s' = Some (h', s')
        /\ Scene_destructor h' s' = Some (h', s')).
Proof.
  rewrite !UnloadGeometryData_eq.
  split; [done|]. do 4 (split; [done|]).
  intros h h' s' [_ ->]%UnloadTextureData_inv.
  unfold Scene_destructor. rewrite UnloadTextureData_eq. by simpl.
Qed.

Lemma Unload_idempotent_witness :
  Scene_UnloadTextureData Sample.heap Sample.scene
  = Some ({[7%N]}, Scene_set_textures [] Sample.scene)
  /\ Scene_UnloadTextureData {[7%N]} (Scene_set_textures [] Sample.scene)
     = Some ({[7%N]}, Scene_set_textures [] Sample.scene)
  /\ Scene_destructor {[7%N]} (Scene_set_textures [] Sample.scene)
     = Some ({[7%N]}, Scene_set_textures [] Sample.scene).
Proof.
  pose proof Sample_unload as Hrun.
  split; [exact Hrun|].
  destruct (Unload_idempotent (L := QLib) Sample.scene)
    as (_ & _ & _ & _ & _ & Htex).
  destruct (Htex _ _ _ Hrun) as (_ & _ & Hagain & Hdtor).
  split; assumption.
Defined.

(** ** Traversals as sequences of writes *)

Section Tree.
Context `{L : MathLib}.

(** Induction over a tree, with the hypothesis for every child. *)
Lemma NodeTree_induction (P : NodeTree -> Prop) :
  (forall cs ixs m h a, Forall P cs -> P (mkNodeTree cs ixs m h a)) ->
  forall n, P n.
Proof.
  intros Hnode. fix IH 1. intros [cs ixs m h a]. apply Hnode.
  induction cs as [|c cs IHcs]; constructor; [apply IH | exact IHcs].
Qed.

Lemma NodeTree_Animate_unfold (n : NodeTree)
    (animationNodes : list AnimationNode) (parentTransform : float4x4)
    (st : Scene * option float4x4) :
  NodeTree_Animate n animationNodes parentTransform st
  = match localTransform animationNodes n with
    | None => None
    | Some local =>
        let world := m_mul parentTransform local in
        animateChildren (NodeTree_children n) animationNodes world
          match snd st with
          | Some _ => Some (fst st, Some world)
          | None =>
              match writeInstances world (NodeTree_instances n) (fst st) with
              | Some s' => Some (s', None)
              | None => None
              end
          end
    end.
Proof.
  destruct n as [cs ixs m h a]. simpl.
  destruct (localTransform _ _) as [local|]; [|done]. cbv zeta.
  match goal with
  | |- _ = animateChildren _ _ _ ?acc => generalize acc
  end.
  induction cs as [|c cs IHcs]; intros acc; simpl; [done|].
  destruct acc as [st'|]; [apply IHcs | done].
Qed.

Lemma NodeTree_writes_unfold (animationNodes : list AnimationNode)
    (parentTransform : float4x4) (n : NodeTree) :
  NodeTree_writes animationNodes parentTransform n
  = match localTransform animationNodes n with
    | None => None
    | Some local =>
        let world := m_mul parentTransform local in
        match writesChildren animationNodes world (NodeTree_children n) with
        | Some below =>
            Some (map (fun i => (i, world)) (NodeTree_instances n) ++ below)
        | None => None
        end
    end.
Proof.
  destruct n as [cs ixs m h a]. simpl.
  destruct (localTransform _ _) as [local|]; [|done]. cbv zeta.
  match goal with
  | |- match ?f cs with _ => _ end = _ =>
      assert (f cs = writesChildren animationNodes
                       (m_mul parentTransform local) cs) as ->
  end; [|done].
  induction cs as [|c cs IHcs]; simpl; [done|]. by rewrite IHcs.
Qed.

Lemma animateChildren_None (cs : list NodeTree)
    (animationNodes : list AnimationNode) (world : float4x4) :
  animateChildren cs animationNodes world None = None.
Proof. by destruct cs. Qed.

Lemma applyWrites_app (ws1 ws2 : list (N * float4x4)) (s : Scene) :
  applyWrites (ws1 ++ ws2) s
  = match applyWrites ws1 s with
    | Some s' => applyWrites ws2 s'
    | None => None
    end.
Proof.
  revert s. induction ws1 as [|w ws1 IH]; intros s; simpl; [done|].
  destruct (writeInstance _ _ _); [apply IH | done].
Qed.

Lemma writeInstances_applyWrites (world : float4x4) (ixs : list N)
    (s : Scene) :
  writeInstances world ixs s
  = applyWrites (map (fun i => (i, world)) ixs) s.
Proof.
  revert s. induction ixs as [|i ixs IH]; intros s; simpl; [done|].
  destruct (writeInstance _ _ _); [apply IH | done].
Qed.

(** The traversal with a null [outTransform] performs the writes of
    [NodeTree_writes], and fails exactly when they do. *)
Lemma NodeTree_Animate_writes (n : NodeTree)
    (animationNodes : list AnimationNode) (parentTransform : float4x4)
    (s : Scene) :
  NodeTree_Animate n animationNodes parentTransform (s, None)
  = match NodeTree_writes animationNodes parentTransform n with
    | Some ws => asState (applyWrites ws s)
    | None => None
    end.
Proof.
  revert parentTransform s.
  induction n as [cs ixs m h a IH] using NodeTree_induction.
  intros P s. rewrite NodeTree_Animate_unfold, NodeTree_writes_unfold.
  destruct (localTransform animationNodes (mkNodeTree cs ixs m h a))
    as [local|]; [|done].
  cbv zeta. simpl snd. simpl fst. simpl NodeTree_children.
  simpl NodeTree_instances. rewrite writeInstances_applyWrites.
  generalize (m_mul P local). intros world.
  generalize (map (fun i => (i, world)) ixs). intros own.
  change (match applyWrites own s with
          | Some s' => Some (s', None)
          | None => None
          end) with (asState (applyWrites own s)).
  revert own s.
  induction IH as [|c cs Hc _ IHcs]; intros own s; simpl.
  - by rewrite app_nil_r.
  - destruct (applyWrites own s) as [s1|] eqn:Hown; simpl.
    + rewrite Hc.
      destruct (NodeTree_writes animationNodes world c) as [wc|];
        [|by rewrite animateChildren_None].
      specialize (IHcs (own ++ wc) s).
      rewrite applyWrites_app, Hown in IHcs. rewrite IHcs.
      destruct (writesChildren animationNodes world cs) as [below|];
        [|done].
      by rewrite app_assoc.
    + destruct (NodeTree_writes animationNodes world c) as [wc|]; [|done].
      destruct (writesChildren animationNodes world cs) as [below|];
        [|done].
      by rewrite applyWrites_app, Hown.
Qed.
(** *** What a sequence of writes does to one instance *)

Lemma writeInstance_Some (world : float4x4) (i : N) (s s' : Scene) :
  writeInstance world i s = Some s' <->
  exists old,
    vector_at (Scene_instances s) i = Some old
    /\ s' = Scene_set_instances
              (vector_set (Scene_instances s) i (Instance_moveTo world old))
              s.
Proof.
  unfold writeInstance.
  destruct (vector_at (Scene_instances s) i) as [old|]; split.
  - intros [= <-]. by exists old.
  - by intros (old' & [= <-] & ->).
  - done.
  - by intros (old' & [=] & _).
Qed.

Lemma writeInstance_other (world : float4x4) (i j : N) (s s' : Scene) :
  writeInstance world j s = Some s' -> j ≠ i ->
  vector_at (Scene_instances s') i = vector_at (Scene_instances s) i.
Proof.
  intros (old & _ & ->)%writeInstance_Some Hne. unfold vector_at, vector_set.
  simpl. apply list_lookup_insert_ne. intros Heq. apply Hne.
  by apply N2Nat.inj.
Qed.

Lemma writeInstance_same (world : float4x4) (i : N) (s s' : Scene) :
  writeInstance world i s = Some s' ->
  exists old,
    vector_at (Scene_instances s) i = Some old
    /\ vector_at (Scene_instances s') i = Some (Instance_moveTo world old).
Proof.
  intros (old & Hold & ->)%writeInstance_Some. exists old. split; [done|].
  unfold vector_at, vector_set in *. simpl.
  apply list_lookup_insert_eq. by eapply lookup_lt_Some.
Qed.



(** Writes inside the bounds succeed. *)
Lemma applyWrites_inBounds (ws : list (N * float4x4)) (s : Scene) :
  inBounds (length (Scene_instances s)) ws ->
  exists s', applyWrites ws s = Some s'.
Proof.
  revert s. induction ws as [|w ws IH]; intros s Hb; simpl; [by eexists|].
  apply Forall_cons in Hb as [Hw Hb].
  destruct (lookup_lt_is_Some_2 (Scene_instances s) _ Hw) as [old Hold].
  unfold writeInstance, vector_at. rewrite Hold.
  apply IH. unfold vector_set. simpl. by rewrite length_insert.
Qed.

Lemma assigned_cons (i : N) (w : N * float4x4) (ws : list (N * float4x4)) :
  assigned i (w :: ws)
  = if decide (fst w = i) then snd w :: assigned i ws else assigned i ws.
Proof.
  unfold assigned. destruct (decide (fst w = i)) as [Heq|Hne].
  - by rewrite filter_cons_True.
  - by rewrite filter_cons_False.
Qed.

Lemma assigned_app (i : N) (ws1 ws2 : list (N * float4x4)) :
  assigned i (ws1 ++ ws2) = assigned i ws1 ++ assigned i ws2.
Proof. unfold assigned. by rewrite filter_app, map_app. Qed.

(** An instance that receives no write stays as it is. *)
Lemma applyWrites_untouched (i : N) (ws : list (N * float4x4))
    (s s' : Scene) :
  applyWrites ws s = Some s' -> assigned i ws = [] ->
  vector_at (Scene_instances s') i = vector_at (Scene_instances s) i.
Proof.
  revert s. induction ws as [|w ws IH]; intros s; simpl.
  - by intros [= <-].
  - destruct (writeInstance _ _ _) as [s1|] eqn:Hw; [|done].
    rewrite assigned_cons. destruct (decide (fst w = i)); [done|].
    intros Hrest Hnone. rewrite (IH _ Hrest Hnone).
    by eapply writeInstance_other.
Qed.


(** The current fields of an instance come from the last write to it. *)
Lemma applyWrites_last (i : N) (T : float4x4) (ws : list (N * float4x4))
    (s s' : Scene) :
  applyWrites ws s = Some s' -> last (assigned i ws) = Some T ->
  exists inst,
    vector_at (Scene_instances s') i = Some inst
    /\ Instance_rotation inst = m_rotationPart T
    /\ Instance_position inst = m_position T.
Proof.
  revert s. induction ws as [|w ws IH]; intros s; simpl; [done|].
  destruct (writeInstance _ _ _) as [s1|] eqn:Hw; [|done].
  rewrite assigned_cons. destruct (decide (fst w = i)) as [Heq|Hne].
  - intros Hrest. rewrite last_cons.
    destruct (last (assigned i ws)) as [T'|] eqn:Hlast.
    + intros [= ->]. by eapply IH.
    + intros [= HT]. apply last_None in Hlast. rewrite Heq, HT in Hw.
      apply writeInstance_same in Hw as (old & Hold & Hnew).
      exists (Instance_moveTo T old).
      by rewrite (applyWrites_untouched _ _ _ _ Hrest Hlast).
  - intros Hrest Hlast. by eapply IH.
Qed.
(** The writes of one node to its own instances. *)
Lemma assigned_own_in (i : N) (world : float4x4) (ixs : list N) :
  i ∈ ixs -> last (assigned i (map (fun j => (j, world)) ixs)) = Some world.
Proof.
  induction ixs as [|j ixs IH]; [by intros ?%elem_of_nil|].
  intros Hin. simpl. rewrite assigned_cons. simpl.
  destruct (decide (j = i)) as [->|Hne].
  - rewrite last_cons.
    destruct (last (assigned i (map (fun j => (j, world)) ixs)))
      as [w|] eqn:Hlast; [|done].
    apply last_Some_elem_of in Hlast. unfold assigned in Hlast.
    apply list_elem_of_In, in_map_iff in Hlast as ([j w'] & Hw & Hin').
    apply list_elem_of_In, list_elem_of_filter in Hin' as [_ Hin'].
    apply list_elem_of_In, in_map_iff in Hin' as (k & [= _ <-] & _).
    simpl in Hw. by rewrite Hw.
  - apply IH. apply elem_of_cons in Hin as [->|Hin]; [done|exact Hin].
Qed.

Lemma assigned_own_notin (i : N) (world : float4x4) (ixs : list N) :
  i ∉ ixs -> assigned i (map (fun j => (j, world)) ixs) = [].
Proof.
  induction ixs as [|j ixs IH]; [done|].
  intros Hnot. simpl. rewrite assigned_cons. simpl.
  apply not_elem_of_cons in Hnot as [Hne Hnot].
  rewrite decide_False by done. by apply IH.
Qed.

Lemma inBounds_own (count : nat) (world : float4x4) (ixs : list N) :
  Forall (fun i => (N.to_nat i < count)%nat) ixs ->
  inBounds count (map (fun j => (j, world)) ixs).
Proof.
  unfold inBounds. induction 1; simpl; constructor; done.
Qed.

(** With a non-null [outTransform] a node without children stores its world
    transform through the pointer and leaves the scene alone. *)
Lemma NodeTree_Animate_out_leaf (n : NodeTree)
    (animationNodes : list AnimationNode) (parentTransform : float4x4)
    (local out : float4x4) (s : Scene) :
  NodeTree_children n = [] ->
  localTransform animationNodes n = Some local ->
  NodeTree_Animate n animationNodes parentTransform (s, Some out)
  = Some (s, Some (m_mul parentTransform local)).
Proof.
  intros Hleaf Hlocal. rewrite NodeTree_Animate_unfold, Hlocal, Hleaf.
  done.
Qed.
(** *** Valid trees, their indices and the nodes a traversal reaches *)

Lemma NodeTree_valid_unfold (animationNodes : list AnimationNode)
    (count : nat) (n : NodeTree) :
  NodeTree_valid animationNodes count n
  = ((NodeTree_animationNodeIndex n =? InvalidIndex)
     || (NodeTree_animationNodeIndex n <? N.of_nat (length animationNodes)))
    && forallb (fun i => i <? N.of_nat count) (NodeTree_instances n)
    && forallb (NodeTree_valid animationNodes count) (NodeTree_children n).
Proof. by destruct n. Qed.

Lemma NodeTree_indices_unfold (n : NodeTree) :
  NodeTree_indices n
  = NodeTree_instances n ++ flat_map NodeTree_indices (NodeTree_children n).
Proof. by destruct n. Qed.

(** A valid tree has a sequence of writes, all inside the bounds. *)
Lemma NodeTree_valid_writes (animationNodes : list AnimationNode)
    (count : nat) (n : NodeTree) (P : float4x4) :
  NodeTree_valid animationNodes count n = true ->
  exists ws,
    NodeTree_writes animationNodes P n = Some ws /\ inBounds count ws.
Proof.
  revert P. induction n as [cs ixs m h a IH] using NodeTree_induction.
  intros P. rewrite NodeTree_valid_unfold, NodeTree_writes_unfold. simpl.
  intros [[Hnode Hixs]%andb_true_iff Hcs]%andb_true_iff.
  assert (exists local,
            localTransform animationNodes (mkNodeTree cs ixs m h a)
            = Some local) as [local ->].
  { unfold localTransform. simpl.
    destruct (a =? InvalidIndex) eqn:Ha; [by eexists|]. simpl in Hnode.
    apply N.ltb_lt in Hnode. unfold vector_at.
    destruct (lookup_lt_is_Some_2 animationNodes (N.to_nat a)) as [x ->];
      [lia | by eexists]. }
  generalize (m_mul P local). intros world.
  assert (inBounds count (map (fun i => (i, world)) ixs)) as Hown.
  { apply inBounds_own. apply Forall_forall. intros i Hi.
    rewrite forallb_forall in Hixs.
    specialize (Hixs i (proj1 (list_elem_of_In _ _) Hi)).
    apply N.ltb_lt in Hixs. lia. }
  assert (exists below,
            writesChildren animationNodes world cs = Some below
            /\ inBounds count below) as (below & -> & Hbelow).
  { clear Hown. induction IH as [|c cs Hc _ IHcs]; simpl.
    - exists []. split; [done | constructor].
    - simpl in Hcs. apply andb_true_iff in Hcs as [Hvc Hvcs].
      destruct (Hc world Hvc) as (wc & -> & Hbc).
      destruct (IHcs Hvcs) as (below & -> & Hbb).
      exists (wc ++ below). split; [done | by apply Forall_app]. }
  eexists. split; [done | by apply Forall_app].
Qed.

(** The indices of the writes are the indices that the tree lists. *)
Lemma NodeTree_writes_indices (animationNodes : list AnimationNode)
    (P : float4x4) (n : NodeTree) (ws : list (N * float4x4)) :
  NodeTree_writes animationNodes P n = Some ws ->
  map fst ws = NodeTree_indices n.
Proof.
  revert P ws. induction n as [cs ixs m h a IH] using NodeTree_induction.
  intros P ws. rewrite NodeTree_writes_unfold, NodeTree_indices_unfold.
  destruct (localTransform _ _) as [local|]; [|done]. simpl.
  generalize (m_mul P local). intros world.
  destruct (writesChildren animationNodes world cs) as [below|] eqn:Hbelow;
    [|done].
  intros [= <-]. rewrite map_app, map_map. simpl. rewrite map_id. f_equal.
  revert below Hbelow. induction IH as [|c cs Hc _ IHcs]; intros below; simpl.
  - by intros [= <-].
  - destruct (NodeTree_writes animationNodes world c) as [wc|] eqn:Hwc;
      [|done].
    destruct (writesChildren animationNodes world cs) as [rest|]; [|done].
    intros [= <-]. rewrite map_app. f_equal; [by eapply Hc | by apply IHcs].
Qed.

(** The writes are the world transforms of the nodes reached, one for each
    instance index that a node lists. *)
Lemma NodeTree_writes_reaches (animationNodes : list AnimationNode)
    (P : float4x4) (n : NodeTree) (ws : list (N * float4x4))
    (i : N) (T : float4x4) :
  NodeTree_writes animationNodes P n = Some ws ->
  (i, T) ∈ ws <->
  exists m, reaches animationNodes P n m T /\ i ∈ NodeTree_instances m.
Proof.
  revert P ws. induction n as [cs ixs m h a IH] using NodeTree_induction.
  intros P ws. rewrite NodeTree_writes_unfold.
  destruct (localTransform animationNodes (mkNodeTree cs ixs m h a))
    as [local|] eqn:Hlocal; [|done].
  simpl.
  destruct (writesChildren animationNodes (m_mul P local) cs)
    as [below|] eqn:Hbelow; [|done].
  intros [= <-].
  assert ((i, T) ∈ below <->
          exists c m0, c ∈ cs
            /\ reaches animationNodes (m_mul P local) c m0 T
            /\ i ∈ NodeTree_instances m0) as Hchildren.
  { clear Hlocal. revert below Hbelow.
    generalize (m_mul P local). intros world.
    induction IH as [|c cs Hc _ IHcs]; intros below; simpl.
    - intros [= <-]. split; [by intros ?%elem_of_nil|].
      by intros (c & m0 & ?%elem_of_nil & _).
    - destruct (NodeTree_writes animationNodes world c) as [wc|] eqn:Hwc;
        [|done].
      destruct (writesChildren animationNodes world cs) as [rest|];
        [|done].
      intros [= <-]. rewrite elem_of_app, (Hc _ _ Hwc), (IHcs _ eq_refl).
      split.
      + intros [(m0 & Hr & Hi)|(c' & m0 & Hc' & Hr & Hi)].
        * exists c, m0. split; [left | done].
        * exists c', m0. split; [by right | done].
      + intros (c' & m0 & [->|Hc']%elem_of_cons & Hr & Hi).
        * left. by exists m0.
        * right. by exists c', m0. }
  rewrite elem_of_app, Hchildren. split.
  - intros [Hown|(c & m0 & Hc & Hr & Hi)].
    + apply list_elem_of_In, in_map_iff in Hown as (j & [= -> <-] & Hj).
      exists (mkNodeTree cs ixs m h a). split; [by constructor|].
      by apply list_elem_of_In.
    + exists m0. split; [|done]. by eapply reaches_below.
  - intros (m0 & Hr & Hi). inversion Hr as [? ? local' Hl|? ? c ? local' ? Hl Hc Hr'];
      subst; rewrite Hlocal in Hl; injection Hl as <-.
    + left. apply list_elem_of_In, in_map_iff. exists i.
      split; [done | by apply list_elem_of_In].
    + right. by exists c, m0.
Qed.

Lemma assigned_elem (i : N) (T : float4x4) (ws : list (N * float4x4)) :
  T ∈ assigned i ws <-> (i, T) ∈ ws.
Proof.
  unfold assigned. rewrite list_elem_of_fmap. split.
  - intros ([j T'] & -> & [Hj Hin]%list_elem_of_filter). simpl in *.
    by subst.
  - intros Hin. exists (i, T). split; [done|].
    by apply list_elem_of_filter.
Qed.


Lemma assigned_notin (i : N) (ws : list (N * float4x4)) :
  i ∉ map fst ws -> assigned i ws = [].
Proof.
  intros Hnot. destruct (assigned i ws) as [|T rest] eqn:Hrest; [done|].
  destruct Hnot. apply list_elem_of_In, in_map_iff. exists (i, T).
  split; [done|]. apply list_elem_of_In, assigned_elem. rewrite Hrest. left.
Qed.


Lemma writesChildren_app (animationNodes : list AnimationNode)
    (world : float4x4) (cs1 cs2 : list NodeTree) :
  writesChildren animationNodes world (cs1 ++ cs2)
  = match writesChildren animationNodes world cs1,
          writesChildren animationNodes world cs2 with
    | Some a, Some b => Some (a ++ b)
    | _, _ => None
    end.
Proof.
  induction cs1 as [|c cs1 IH]; simpl.
  - by destruct (writesChildren animationNodes world cs2).
  - rewrite IH. destruct (NodeTree_writes animationNodes world c); [|done].
    destruct (writesChildren animationNodes world cs1); [|done].
    destruct (writesChildren animationNodes world cs2); [|done].
    by rewrite app_assoc.
Qed.

Lemma writesChildren_indices (animationNodes : list AnimationNode)
    (world : float4x4) (cs : list NodeTree) (below : list (N * float4x4)) :
  writesChildren animationNodes world cs = Some below ->
  map fst below = flat_map NodeTree_indices cs.
Proof.
  revert below. induction cs as [|c cs IH]; intros below; simpl.
  - by intros [= <-].
  - destruct (NodeTree_writes animationNodes world c) as [wc|] eqn:Hwc;
      [|done].
    destruct (writesChildren animationNodes world cs) as [rest|]; [|done].
    intros [= <-]. rewrite map_app. f_equal.
    + by eapply NodeTree_writes_indices.
    + by apply IH.
Qed.
End Tree.

(** ** Composition of transforms down the tree *)

(** C2: the world transform of a node is [parentTransform x local], in that
    operand order, for every node a traversal reaches.  On a valid tree the
    traversal has a result, and an instance listed by a node that is reached
    with the world transform [W] (and by no node with another one) holds the
    rotation and position of [W].  In particular, when the root has the
    local transform [rootLocal], so that it applies [R = P x rootLocal], and
    one of its children has the local transform [C], an instance of that
    child receives [R x C], whatever the other children are, unless a node
    visited later (below the child, or a later child) lists it too.  Visited
    with a non-null [outTransform], a node without children stores its
    world transform through the pointer. *)
Theorem NodeTree_Animate_composes `{L : MathLib}
    (animationNodes : list AnimationNode) (parentTransform : float4x4)
    (tree : NodeTree) (s : Scene) :
  NodeTree_valid animationNodes (length (Scene_instances s)) tree = true ->
  exists s',
    NodeTree_Animate tree animationNodes parentTransform (s, None)
    = Some (s', None)
    /\ (forall n W i,
          reaches animationNodes parentTransform tree n W ->
          i ∈ NodeTree_instances n ->
          (forall n' W',
             reaches animationNodes parentTransform tree n' W' ->
             i ∈ NodeTree_instances n' -> W' = W) ->
          exists inst,
            vector_at (Scene_instances s') i = Some inst
            /\ Instance_rotation inst = m_rotationPart W
            /\ Instance_position inst = m_position W)
    /\ (forall rootLocal before child after C i,
          localTransform animationNodes tree = Some rootLocal ->
          NodeTree_children tree = before ++ child :: after ->
          localTransform animationNodes child = Some C ->
          i ∈ NodeTree_instances child ->
          i ∉ flat_map NodeTree_indices (NodeTree_children child) ->
          i ∉ flat_map NodeTree_indices after ->
          let R := m_mul parentTransform rootLocal in
          exists inst,
            vector_at (Scene_instances s') i = Some inst
            /\ Instance_rotation inst = m_rotationPart (m_mul R C)
            /\ Instance_position inst = m_position (m_mul R C))
    /\ (forall n P local out,
          NodeTree_children n = [] ->
          localTransform animationNodes n = Some local ->
          NodeTree_Animate n animationNodes P (s, Some out)
          = Some (s, Some (m_mul P local))).
Proof.
  intros Hvalid.
  destruct (NodeTree_valid_writes _ _ _ parentTransform Hvalid)
    as (ws & Hws & Hbounds).
  destruct (applyWrites_inBounds ws s Hbounds) as [s' Hrun].
  assert (forall n W i,
            reaches animationNodes parentTransform tree n W ->
            i ∈ NodeTree_instances n ->
            (forall n' W',
               reaches animationNodes parentTransform tree n' W' ->
               i ∈ NodeTree_instances n' -> W' = W) ->
            exists inst,
              vector_at (Scene_instances s') i = Some inst
              /\ Instance_rotation inst = m_rotationPart W
              /\ Instance_position inst = m_position W) as Hreached.
  { intros n W i Hreach Hi Honly.
    assert ((i, W) ∈ ws) as Hin.
    { apply (NodeTree_writes_reaches _ _ _ _ _ _ Hws). by exists n. }
    apply assigned_elem in Hin.
    destruct (last (assigned i ws)) as [T|] eqn:Hlast.
    - assert (T = W) as ->; [|by eapply applyWrites_last].
      apply last_Some_elem_of, assigned_elem in Hlast.
      apply (NodeTree_writes_reaches _ _ _ _ _ _ Hws) in Hlast
        as (n' & Hreach' & Hi').
      by eapply Honly.
    - apply last_None in Hlast. rewrite Hlast in Hin.
      by apply elem_of_nil in Hin. }
  exists s'. split; [|split; [|split]].
  - by rewrite NodeTree_Animate_writes, Hws, Hrun.
  - exact Hreached.
  - intros rootLocal before child after C i Hroot Hcs HC Hi Hbelow Hafter R.
    apply (applyWrites_last i (m_mul R C) _ _ _ Hrun).
    rewrite NodeTree_writes_unfold, Hroot, Hcs in Hws. cbv zeta in Hws.
    fold R in Hws. rewrite writesChildren_app in Hws. simpl in Hws.
    destruct (writesChildren animationNodes R before) as [wb|]; [|done].
    rewrite NodeTree_writes_unfold, HC in Hws. cbv zeta in Hws.
    destruct (writesChildren animationNodes (m_mul R C)
                (NodeTree_children child)) as [wc|] eqn:Hwc; [|done].
    destruct (writesChildren animationNodes R after) as [wa|] eqn:Hwa;
      [|done].
    injection Hws as <-.
    rewrite !assigned_app, !last_app.
    rewrite (assigned_notin i wa), (assigned_notin i wc).
    + simpl. by rewrite assigned_own_in.
    + by rewrite (writesChildren_indices _ _ _ _ Hwc).
    + by rewrite (writesChildren_indices _ _ _ _ Hwa).
  - intros n P local out Hleaf Hlocal. by apply NodeTree_Animate_out_leaf.
Qed.

(** On the sample tree the root moves by one along x, its first child is a
    pivot that moves by ten, and its second child doubles lengths: the
    instance of the second child lands at x = 1, the position of [R x C],
    and neither at x = 2, the position of [C x R], nor at x = 11, where the
    pivot's transform would put it. *)
Lemma NodeTree_Animate_composes_witness :
  (exists s',
     NodeTree_Animate (L := QLib) Sample.fork [] QMath.identity
       (Sample.scene, None) = Some (s', None)
     /\ exists inst,
          vector_at (Scene_instances s') 1 = Some inst
          /\ Instance_position inst
             = QMath.position (QMath.mmul (Sample.move 1) Sample.twice))
  /\ QMath.position (QMath.mmul (Sample.move 1) Sample.twice)
     = mkVec3 1%Q 0%Q 0%Q
  /\ QMath.position (QMath.mmul Sample.twice (Sample.move 1))
     = mkVec3 2%Q 0%Q 0%Q
  /\ QMath.position
       (QMath.mmul (QMath.mmul (Sample.move 1) (Sample.move 10))
          Sample.twice)
     = mkVec3 11%Q 0%Q 0%Q.
Proof.
  split; [|split; [|split]; reflexivity].
  destruct (NodeTree_Animate_composes (L := QLib) [] QMath.identity
              Sample.fork Sample.scene)
    as (s' & Hrun & _ & Hchild & _).
  - reflexivity.
  - exists s'. split; [exact Hrun|].
    destruct (Hchild (Sample.move 1) [Sample.pivot] Sample.child []
                Sample.twice 1%N)
      as (inst & Hinst & _ & Hpos).
    + reflexivity.
    + reflexivity.
    + reflexivity.
    + simpl. left.
    + simpl. apply not_elem_of_nil.
    + simpl. apply not_elem_of_nil.
    + exists inst. split; [exact Hinst | exact Hpos].
Defined.

(** ** The snapshot of the previous frame *)



(** ** Key-frame sampling *)

Section Clamp.
Context `{L : MathLib} {V : Type}.
Variable interp : V -> V -> float -> V.
Variable identity : V.



End Clamp.




(** C5: [Update] is idempotent and free of history.  A second call with the
    same time leaves the node, and so its cached transform, as the first
    call left it; the result does not depend on the time of an earlier call
    nor on the transform cached before, only on the time and the keys. *)
Theorem AnimationNode_Update_idempotent `{L : MathLib}
    (time : float) (n : AnimationNode) :
  AnimationNode_Update time (AnimationNode_Update time n)
  = AnimationNode_Update time n
  /\ AnimationNode_mTransform
       (AnimationNode_Update time (AnimationNode_Update time n))
     = AnimationNode_mTransform (AnimationNode_Update time n)
  /\ (forall earlier,
        AnimationNode_Update time (AnimationNode_Update earlier n)
        = AnimationNode_Update time n)
  /\ (forall cached,
        AnimationNode_Update time (AnimationNode_set_mTransform cached n)
        = AnimationNode_Update time n).
Proof. by destruct n. Qed.

(** ** The per-frame entry point *)

(** C1: with [animationIndex] at or beyond the number of animations,
    [Scene::Animate] is a no-op: it returns the scene with every field as it
    was, the progress as it was and the memory behind [outCameraTransform]
    as it was. *)
Theorem Scene_Animate_invalid_index `{L : MathLib}
    (boundProgress : Animation -> float -> float * float)
    (animationSpeed elapsedTime animationProgress : float)
    (animationIndex : N) (outCameraTransform : option float4x4)
    (s : Scene) :
  (N.of_nat (length (Scene_animations s)) <= animationIndex)%N ->
  Scene_Animate boundProgress animationSpeed elapsedTime animationProgress
    animationIndex outCameraTransform s
  = Some (s, animationProgress, outCameraTransform).
Proof.
  intros Hrange. unfold Scene_Animate.
  destruct (N.leb_spec (N.of_nat (length (Scene_animations s)))
              animationIndex) as [_|Hlt]; [done | lia].
Qed.

(** The sample scene has one animation; index 1 names none. *)
Lemma Scene_Animate_invalid_index_witness :
  Scene_Animate (L := QLib) (fun a p => (p, Animation_sign a))
    1%Q 500%Q 0%Q 1%N (Some QMath.identity) Sample.scene
  = Some (Sample.scene, 0%Q, Some QMath.identity).
Proof.
  apply (Scene_Animate_invalid_index (L := QLib)). simpl. lia.
Defined.

(** With the index of the one animation the call does animate: half a
    second into the slide of one second, instance 0 is at x = 5 and its
    previous-frame position is where the instance was before. *)
Example Scene_Animate_slide :
  exists s' inst,
    Scene_Animate (L := QLib) (fun a p => (p, Animation_sign a))
      1%Q 500%Q 0%Q 0%N None Sample.scene
    = Some (s', (1 # 2)%Q, None)
    /\ vector_at (Scene_instances s') 0 = Some inst
    /\ Instance_position inst = mkVec3 5%Q 0%Q 0%Q
    /\ Instance_positionPrev inst = mkVec3 0%Q 0%Q 0%Q.
Proof. eexists _, _. repeat split. Qed.

(** * Further properties of the header *)

(** ** Materials and static textures *)

(** X1: the four alpha-mode predicates of [Material] exclude each other:
    for every material at most one of [IsOpaque], [IsAlphaOpaque],
    [IsTransparent] and [IsOff] is true.  Exactly one is true when
    [alphaMode] is one of the four enumerators (0 to 3), and none is true
    for any other value of the enumeration's underlying type. *)
Theorem Material_alpha_partition (m : Material) :
  let holding :=
    (Nat.b2n (Material_IsOpaque m) + Nat.b2n (Material_IsAlphaOpaque m)
     + Nat.b2n (Material_IsTransparent m) + Nat.b2n (Material_IsOff m))%nat in
  (holding <= 1)%nat
  /\ (holding = 1%nat <-> (0 <= Material_alphaMode m <= 3)%Z)
  /\ (holding = 0%nat <->
      (Material_alphaMode m < 0 \/ 3 < Material_alphaMode m)%Z).
Proof.
  unfold Material_IsOpaque, Material_IsAlphaOpaque, Material_IsTransparent,
    Material_IsOff, AlphaMode_eqb, OPAQUE, PREMULTIPLIED, TRANSPARENT, OFF.
  destruct (Z.eqb_spec (Material_alphaMode m) 0),
    (Z.eqb_spec (Material_alphaMode m) 1),
    (Z.eqb_spec (Material_alphaMode m) 2),
    (Z.eqb_spec (Material_alphaMode m) 3); simpl; lia.
Qed.

(** X2: the values of [StaticTexture] are pairwise distinct and below 5, and
    a material whose emissive map is the static texture [t] is emissive
    exactly when [t] is not [Black]; the other maps and the alpha mode play
    no role. *)
Theorem Material_IsEmissive_static (t t' : StaticTexture) (m : Material) :
  (StaticTexture_value t = StaticTexture_value t' -> t = t')
  /\ StaticTexture_value t < 5
  /\ (Material_IsEmissive
        (Material_set_emissiveMapIndex (StaticTexture_value t) m) = true
      <-> t <> Black).
Proof.
  split; [|split].
  - by destruct t, t'.
  - destruct t; simpl; lia.
  - unfold Material_IsEmissive. simpl. by destruct t.
Qed.

(** ** The sentinel index *)

(** X3: [InvalidIndex] is the largest 32-bit value and so names no element
    of a vector with fewer than 2^32 elements; in particular the mesh and
    material indices of a default-constructed [Instance] resolve to nothing
    in such vectors. *)
Theorem InvalidIndex_names_nothing `{L : MathLib} {A : Type}
    (v : list A) (meshes : list Mesh) (materials : list Material) (z : Z) :
  (N.of_nat (length v) <= InvalidIndex)%N ->
  (N.of_nat (length meshes) <= InvalidIndex)%N ->
  (N.of_nat (length materials) <= InvalidIndex)%N ->
  (uint32_t z <= InvalidIndex)%N
  /\ vector_at v InvalidIndex = None
  /\ vector_at meshes (Instance_meshIndex Instance_default) = None
  /\ vector_at materials (Instance_materialIndex Instance_default) = None.
Proof.
  intros Hv Hmeshes Hmaterials. simpl Instance_meshIndex.
  simpl Instance_materialIndex. unfold vector_at.
  rewrite !lookup_ge_None. rewrite InvalidIndex_value in *.
  split; [|lia].
  unfold uint32_t.
  pose proof (Z.mod_pos_bound z (2 ^ 32) ltac:(lia)). lia.
Qed.

Lemma InvalidIndex_names_nothing_witness :
  (uint32_t (-7) <= InvalidIndex)%N
  /\ vector_at [1%N; 2%N] InvalidIndex = None
  /\ vector_at (Scene_meshes Sample.scene)
       (Instance_meshIndex (L := QLib) Instance_default) = None
  /\ vector_at (Scene_materials Sample.scene)
       (Instance_materialIndex (L := QLib) Instance_default) = None.
Proof.
  apply (InvalidIndex_names_nothing (L := QLib));
    rewrite InvalidIndex_value; simpl; lia.
Defined.

(** ** Texture formats *)

(** X4: [OverrideFormat] replaces the format and nothing else: the getter
    returns the new format, every other getter and field is as before, and
    of two overrides the later one alone counts. *)
Theorem Texture_OverrideFormat_frame {Format : Type}
    (fmt fmt' : Format) (t : Texture Format) :
  Texture_GetFormat (Texture_OverrideFormat fmt t) = fmt
  /\ Texture_GetWidth (Texture_OverrideFormat fmt t) = Texture_GetWidth t
  /\ Texture_GetHeight (Texture_OverrideFormat fmt t) = Texture_GetHeight t
  /\ Texture_GetDepth (Texture_OverrideFormat fmt t) = Texture_GetDepth t
  /\ Texture_GetMipNum (Texture_OverrideFormat fmt t) = Texture_GetMipNum t
  /\ Texture_GetArraySize (Texture_OverrideFormat fmt t)
     = Texture_GetArraySize t
  /\ Texture_mips _ (Texture_OverrideFormat fmt t) = Texture_mips _ t
  /\ Texture_name _ (Texture_OverrideFormat fmt t) = Texture_name _ t
  /\ Texture_hash _ (Texture_OverrideFormat fmt t) = Texture_hash _ t
  /\ Texture_alphaMode _ (Texture_OverrideFormat fmt t)
     = Texture_alphaMode _ t
  /\ Texture_OverrideFormat fmt' (Texture_OverrideFormat fmt t)
     = Texture_OverrideFormat fmt' t
  /\ Texture_OverrideFormat (Texture_GetFormat t) t = t.
Proof. destruct t. repeat split. Qed.

(** ** Ownership of textures *)

Section Ownership.
Context `{L : MathLib}.

(** The loop of deletions is defined exactly on owned pointers, and then
    removes exactly them. *)
Lemma delete_each_Some (ps : list N) (h h' : gset N) :
  delete_each ps h = Some h' <->
  NoDup (filter (fun p => p ≠ nullptr) ps)
  /\ (forall p, p ∈ ps -> p ≠ nullptr -> p ∈ h)
  /\ h' = h ∖ list_to_set (filter (fun p => p ≠ nullptr) ps).
Proof.
  split.
  - revert h. induction ps as [|p ps IH]; intros h; simpl.
    + intros [= <-]. split; [constructor|]. split; [|set_solver].
      by intros p ?%elem_of_nil.
    + unfold delete_Texture. destruct (decide (p = nullptr)) as [->|Hp].
      * intros (Hnd & Hlive & ->)%IH.
        rewrite filter_cons_False by (intros ?; done).
        split; [done|]. split; [|done].
        intros q [->|Hq]%elem_of_cons Hq0; [done | by apply Hlive].
      * destruct (decide (p ∈ h)) as [Hin|]; [|done].
        intros (Hnd & Hlive & ->)%IH. rewrite filter_cons_True by done.
        split; [|split].
        -- apply NoDup_cons. split; [|done].
           intros [Hp0 Hpin]%list_elem_of_filter.
           specialize (Hlive p Hpin Hp0). set_solver.
        -- intros q [->|Hq]%elem_of_cons Hq0; [done|].
           specialize (Hlive q Hq Hq0). set_solver.
        -- set_solver.
  - intros (Hnd & Hlive & ->). by apply delete_each_owned.
Qed.

Lemma UnloadTextureData_Some (h h' : gset N) (s s' : Scene) :
  Scene_UnloadTextureData h s = Some (h', s') <->
  Scene_owns h s
  /\ h' = h ∖ list_to_set
              (filter (fun p => p ≠ nullptr) (Scene_textures s))
  /\ s' = Scene_set_textures [] s.
Proof.
  rewrite UnloadTextureData_eq. unfold Scene_owns. split.
  - destruct (delete_each (Scene_textures s) h) as [h0|] eqn:Hrun;
      [|done].
    simpl. intros [= <- <-]. apply delete_each_Some in Hrun. tauto.
  - intros ([Hnd Hlive] & -> & ->).
    by rewrite (proj2 (delete_each_Some _ _ _) (conj Hnd (conj Hlive eq_refl))).
Qed.
End Ownership.

(** X5: [UnloadTextureData] (and with it the destructor) has a defined
    result exactly when the scene owns its textures: every non-null pointer
    of [textures] is live and listed once.  A dangling or repeated pointer
    makes the unload undefined. *)
Theorem UnloadTextureData_defined_iff_owned `{L : MathLib}
    (h : gset N) (s : Scene) :
  (is_Some (Scene_UnloadTextureData h s) <-> Scene_owns h s)
  /\ (is_Some (Scene_destructor h s) <-> Scene_owns h s).
Proof.
  unfold Scene_destructor.
  assert (is_Some (Scene_UnloadTextureData h s) <-> Scene_owns h s) as Hiff.
  { split.
    - intros [[h' s'] Hrun]. apply UnloadTextureData_Some in Hrun. tauto.
    - intros Hown. eexists (_, _). apply UnloadTextureData_Some. eauto. }
  by split.
Qed.

(** X6: the order of the pointers in [textures] does not matter for the
    unload: a scene with the same textures in another order is unloaded
    with the same outcome. *)
Theorem UnloadTextureData_order `{L : MathLib}
    (h : gset N) (textures' : list N) (s : Scene) :
  Permutation (Scene_textures s) textures' ->
  Scene_UnloadTextureData h (Scene_set_textures textures' s)
  = Scene_UnloadTextureData h s.
Proof.
  intros Hperm.
  assert (forall ps qs h', Permutation ps qs ->
            delete_each ps h = Some h' -> delete_each qs h = Some h')
    as Hmove.
  { intros ps qs h' Hpq (Hnd & Hlive & ->)%delete_each_Some.
    apply delete_each_Some. split; [|split].
    - by rewrite <- Hpq.
    - intros p Hp. apply Hlive. by rewrite Hpq.
    - f_equal. apply leibniz_equiv. by rewrite Hpq. }
  rewrite !UnloadTextureData_eq. simpl Scene_textures.
  destruct (delete_each (Scene_textures s) h) as [h'|] eqn:Hrun.
  - rewrite (Hmove _ _ _ Hperm Hrun). by destruct s.
  - destruct (delete_each textures' h) as [h'|] eqn:Hrun'; [|done].
    symmetry in Hperm. by rewrite (Hmove _ _ _ Hperm Hrun') in Hrun.
Qed.

Lemma UnloadTextureData_order_witness :
  Scene_UnloadTextureData Sample.heap
    (Scene_set_textures [2%N; 1%N] Sample.scene)
  = Scene_UnloadTextureData Sample.heap Sample.scene.
Proof.
  apply (UnloadTextureData_order (L := QLib) Sample.heap [2%N; 1%N]
           Sample.scene).
  simpl. apply perm_swap.
Defined.

(** X7: the two unload operations commute: unloading the geometry before or
    after the textures gives the same free store and the same scene, and
    the one order is defined exactly when the other is. *)
Theorem Unload_commute `{L : MathLib} (h : gset N) (s : Scene) :
  Scene_UnloadTextureData h (Scene_UnloadGeometryData s)
  = (fun r => (fst r, Scene_UnloadGeometryData (snd r)))
      <$> Scene_UnloadTextureData h s.
Proof.
  rewrite !UnloadTextureData_eq, !UnloadGeometryData_eq. simpl.
  destruct (delete_each (Scene_textures s) h); simpl; [|done].
  by rewrite UnloadGeometryData_eq.
Qed.

(** X8: two scenes that hold the same non-null texture pointer cannot both
    be unloaded: once the first unload has a result, the unload (or the
    destructor) of the second is undefined, a double delete.  A memberwise
    copy of a scene with a texture is such a second scene. *)
Theorem UnloadTextureData_shared_pointer `{L : MathLib}
    (h h1 : gset N) (s1 s1' s2 : Scene) (p : N) :
  Scene_UnloadTextureData h s1 = Some (h1, s1') ->
  p ∈ Scene_textures s1 -> p ∈ Scene_textures s2 -> p ≠ nullptr ->
  Scene_UnloadTextureData h1 s2 = None
  /\ Scene_destructor h1 s2 = None.
Proof.
  intros (_ & -> & _)%UnloadTextureData_Some Hp1 Hp2 Hp0.
  unfold Scene_destructor.
  destruct (Scene_UnloadTextureData _ s2) as [[h2 s2']|] eqn:Hrun; [|done].
  apply UnloadTextureData_Some in Hrun as ([_ Hlive] & _).
  specialize (Hlive p Hp2 Hp0).
  apply elem_of_difference in Hlive as [_ Hout]. destruct Hout.
  apply elem_of_list_to_set, list_elem_of_filter. done.
Qed.

(** The sample scene and its copy: the second destructor is undefined. *)
Lemma UnloadTextureData_shared_pointer_witness :
  Scene_UnloadTextureData {[7%N]} Sample.scene = None
  /\ Scene_destructor {[7%N]} Sample.scene = None.
Proof.
  apply (UnloadTextureData_shared_pointer (L := QLib) Sample.heap {[7%N]}
           Sample.scene (Scene_set_textures [] Sample.scene) Sample.scene
           1%N).
  - exact Sample_unload.
  - simpl. left.
  - simpl. left.
  - discriminate.
Defined.

(** X9: scenes that own their textures in one free store and share no
    non-null pointer are unloaded independently: both orders are defined
    and leave the same free store, without the textures of either. *)
Theorem UnloadTextureData_disjoint `{L : MathLib}
    (h : gset N) (s1 s2 : Scene) :
  Scene_owns h s1 -> Scene_owns h s2 ->
  (forall p, p ∈ Scene_textures s1 -> p ∈ Scene_textures s2 ->
             p = nullptr) ->
  exists h1 h2 h12,
    Scene_UnloadTextureData h s1 = Some (h1, Scene_set_textures [] s1)
    /\ Scene_UnloadTextureData h1 s2 = Some (h12, Scene_set_textures [] s2)
    /\ Scene_UnloadTextureData h s2 = Some (h2, Scene_set_textures [] s2)
    /\ Scene_UnloadTextureData h2 s1 = Some (h12, Scene_set_textures [] s1)
    /\ (forall p, p ∈ h12 <->
          p ∈ h /\ (p ∈ Scene_textures s1 -> p = nullptr)
          /\ (p ∈ Scene_textures s2 -> p = nullptr)).
Proof.
  intros Hown1 Hown2 Hdisj.
  set (T1 := filter (fun p => p ≠ nullptr) (Scene_textures s1)).
  set (T2 := filter (fun p => p ≠ nullptr) (Scene_textures s2)).
  exists (h ∖ list_to_set T1), (h ∖ list_to_set T2),
    (h ∖ list_to_set T1 ∖ list_to_set T2).
  assert (forall p, p ∈ T1 <-> p ≠ nullptr /\ p ∈ Scene_textures s1) as HT1.
  { intros p. unfold T1. by rewrite list_elem_of_filter. }
  assert (forall p, p ∈ T2 <-> p ≠ nullptr /\ p ∈ Scene_textures s2) as HT2.
  { intros p. unfold T2. by rewrite list_elem_of_filter. }
  destruct Hown1 as [Hnd1 Hlive1]. destruct Hown2 as [Hnd2 Hlive2].
  split; [|split; [|split; [|split]]].
  - apply UnloadTextureData_Some. split; [by split | by split].
  - apply UnloadTextureData_Some. split; [split; [done|] | by split].
    intros p Hp Hp0. apply elem_of_difference. split; [by apply Hlive2|].
    rewrite elem_of_list_to_set, HT1. intros [_ Hp1]. auto.
  - apply UnloadTextureData_Some. split; [by split | by split].
  - apply UnloadTextureData_Some.
    split; [split; [done|] | split; [|done]].
    + intros p Hp Hp0. apply elem_of_difference. split; [by apply Hlive1|].
      rewrite elem_of_list_to_set, HT2. intros [_ Hp2]. auto.
    + fold T1 T2. set_solver.
  - intros p. rewrite !elem_of_difference, !elem_of_list_to_set, HT1, HT2.
    split.
    + intros [[Hin Hn1] Hn2]. split; [done|].
      split; intros Hp; destruct (decide (p = nullptr)); tauto.
    + intros (Hin & Hn1 & Hn2). tauto.
Qed.

Lemma UnloadTextureData_disjoint_witness :
  exists h1 h2 h12,
    Scene_UnloadTextureData Sample.heap Sample.scene
    = Some (h1, Scene_set_textures [] Sample.scene)
    /\ Scene_UnloadTextureData h1 Sample.other
       = Some (h12, Scene_set_textures [] Sample.other)
    /\ Scene_UnloadTextureData Sample.heap Sample.other
       = Some (h2, Scene_set_textures [] Sample.other)
    /\ Scene_UnloadTextureData h2 Sample.scene
       = Some (h12, Scene_set_textures [] Sample.scene)
    /\ (forall p, p ∈ h12 <->
          p ∈ Sample.heap
          /\ (p ∈ Scene_textures Sample.scene -> p = nullptr)
          /\ (p ∈ Scene_textures Sample.other -> p = nullptr)).
Proof.
  apply (UnloadTextureData_disjoint (L := QLib) Sample.heap Sample.scene
           Sample.other).
  - split; [repeat constructor; set_solver|].
    intros p Hp _. unfold Sample.heap. simpl in Hp. set_solver.
  - split; [repeat constructor; set_solver|].
    intros p Hp _. unfold Sample.heap. simpl in Hp. set_solver.
  - intros p Hp1 Hp2. simpl in Hp1, Hp2. set_solver.
Defined.

(** X10: null pointers in [textures] are skipped: a scene whose texture
    pointers are all null (or that has none) is unloaded in every free
    store, and the free store stays as it is. *)
Theorem UnloadTextureData_null_pointers `{L : MathLib}
    (h : gset N) (s : Scene) :
  Forall (fun p => p = nullptr) (Scene_textures s) ->
  Scene_UnloadTextureData h s = Some (h, Scene_set_textures [] s).
Proof.
  intros Hnull. apply UnloadTextureData_Some.
  assert (filter (fun p => p ≠ nullptr) (Scene_textures s) = []) as Hnone.
  { induction Hnull as [|p ps Hp _ IH]; [done|].
    by rewrite filter_cons_False by (intros ?; done). }
  unfold Scene_owns. rewrite Hnone. repeat split.
  - constructor.
  - intros p Hp Hp0. rewrite Forall_forall in Hnull. by destruct Hp0, (Hnull p).
  - set_solver.
Qed.

Lemma UnloadTextureData_null_pointers_witness :
  Scene_UnloadTextureData ∅ Sample.unfilled
  = Some (∅, Scene_set_textures [] Sample.unfilled).
Proof.
  apply (UnloadTextureData_null_pointers (L := QLib) ∅ Sample.unfilled).
  simpl. repeat constructor.
Defined.

(** X11: [UnloadGeometryData] leaves a scene as it is exactly when the
    scene holds no geometry: its four geometry buffers are empty. *)
Theorem UnloadGeometryData_fixed_point `{L : MathLib} (s : Scene) :
  Scene_UnloadGeometryData s = s <->
  Scene_vertices s = [] /\ Scene_unpackedVertices s = []
  /\ Scene_indices s = [] /\ Scene_primitives s = [].
Proof.
  rewrite UnloadGeometryData_eq. destruct s; simpl. split.
  - by intros [= <- <- <- <-].
  - by intros (-> & -> & -> & ->).
Qed.
